(** * ELFdwt: the vector-table checksum patcher of [src/main.cpp]

    A shallow embedding of the whole program: the ELF32 records of
    [namespace elf], [get_raw_file], [calculate_crc] and [main].

    Conventions of the embedding
    - a [uint8_t] is a [Byte.byte]; [uint16_t], [uint32_t] and [size_t]
      values are [Z] with the wrap-around written out ([wrap32],
      [wrap_size]); [size_t] is 64 bits wide (LP64 / LLP64 host);
    - [std::vector<uint8_t> raw] is a [list byte]; [ptr[i]] is the checked
      lookup [raw !! i], and a read outside the vector is the outcome
      [Undefined] (the C++ program has undefined behaviour there);
    - the records [elf::header] and [elf::sector_header] are overlaid on
      the buffer by [reinterpret_cast] on a little-endian host: a field is
      the little-endian number at the field's offset.  Every field of the
      two references [header] and [vectors] is read before the buffer is
      written, so decoding the record once is what the program observes.
      Alignment of the overlay is not modelled;
    - the file system is a [gmap string (list byte)] from paths to
      contents; what happens when the output stream is opened and written
      is chosen by a [write_fault]. *)

From Stdlib Require Import ZArith Lia List Bool.
From Stdlib Require Import Strings.String Strings.Ascii Strings.Byte.
From stdpp Require Import base option list gmap strings.

Local Open Scope Z_scope.

(** ** Machine integers *)

Abbreviation byte := Byte.byte.

Definition wrap32 (x : Z) : Z := x mod 2 ^ 32.

(** [size_t] of the host: 64 bits. *)
Definition size_bits : Z := 64.
Definition wrap_size (x : Z) : Z := x mod 2 ^ size_bits.

Definition is_u16 (x : Z) : Prop := 0 <= x < 2 ^ 16.
Definition is_u32 (x : Z) : Prop := 0 <= x < 2 ^ 32.

(** The value of a [uint8_t]. *)
Definition u8 (b : byte) : Z := Z.of_N (Byte.to_N b).

(** Conversion of an [int] or [uint32_t] expression to [uint8_t], as in
    the assignments [location[k] = ...]. *)
Definition to_byte (x : Z) : byte :=
  match Byte.of_N (Z.to_N (x mod 256)) with
  | Some b => b
  | None => Byte.x00
  end.

(** ** Outcomes of a computation on the buffer *)

(** The eight [return -1] exits of [main], in source order. *)
Inductive error : Set :=
| MissingArgument
| EmptyOrUnreadableFile
| InvalidSignature
| TooSmallForHeader
| TooFewSections
| TooSmallForSectionTable
| WrongSectionType
| TooSmallForVectorTable.

Inductive result (A : Type) : Type :=
| Ok (a : A)
| Fail (e : error)
| Undefined.

Arguments Ok {A} a.
Arguments Fail {A} e.
Arguments Undefined {A}.

(** Sequencing with early exit: the first [Fail] or [Undefined] ends the
    computation.  [x ← m; k] and [m ;; k] are stdpp's notations for it. *)
#[global] Instance result_ret : MRet result := fun A a => Ok a.

#[global] Instance result_bind : MBind result := fun A B k m =>
  match m with
  | Ok a => k a
  | Fail e => Fail e
  | Undefined => Undefined
  end.

(** [if (cond) { print; return -1; }] *)
Definition fail_if (cond : bool) (e : error) : result unit :=
  if cond then Fail e else Ok tt.

(** ** Reading the buffer *)

(** [raw.data()[p]]: defined only inside the vector. *)
Definition read_u8 (raw : list byte) (p : Z) : result Z :=
  match raw !! Z.to_nat p with
  | Some b => Ok (u8 b)
  | None => Undefined
  end.

(** A little-endian [uint16_t] field of an overlaid record. *)
Definition read_u16 (raw : list byte) (p : Z) : result Z :=
  b0 ← read_u8 raw p;
  b1 ← read_u8 raw (p + 1);
  Ok (Z.lor b0 (Z.shiftl b1 8)).

(** A little-endian [uint32_t]:
    [ptr[0] | (ptr[1] << 8) | (ptr[2] << 16) | (ptr[3] << 24)], computed
    on [int] and converted to [uint32_t]. *)
Definition read_u32 (raw : list byte) (p : Z) : result Z :=
  b0 ← read_u8 raw p;
  b1 ← read_u8 raw (p + 1);
  b2 ← read_u8 raw (p + 2);
  b3 ← read_u8 raw (p + 3);
  Ok (wrap32 (Z.lor (Z.lor (Z.lor b0 (Z.shiftl b1 8)) (Z.shiftl b2 16))
                (Z.shiftl b3 24))).

(** [n] consecutive bytes from [p] (for [e_ident]). *)
Fixpoint read_bytes (raw : list byte) (p : Z) (n : nat) : result (list byte) :=
  match n with
  | O => Ok []
  | S n' =>
      match raw !! Z.to_nat p with
      | Some b => bs ← read_bytes raw (p + 1) n'; Ok (b :: bs)
      | None => Undefined
      end
  end.

(** Total counterparts, used to name the value a successful read has. *)
Definition byte_at (raw : list byte) (p : Z) : Z :=
  match raw !! Z.to_nat p with
  | Some b => u8 b
  | None => 0
  end.

Definition u16_at (raw : list byte) (p : Z) : Z :=
  Z.lor (byte_at raw p) (Z.shiftl (byte_at raw (p + 1)) 8).

Definition u32_at (raw : list byte) (p : Z) : Z :=
  wrap32
    (Z.lor (Z.lor (Z.lor (byte_at raw p) (Z.shiftl (byte_at raw (p + 1)) 8))
              (Z.shiftl (byte_at raw (p + 2)) 16))
       (Z.shiftl (byte_at raw (p + 3)) 24)).

(** ** [namespace elf] *)

Module elf.

Definition e_ident_size : Z := 16.

(** [enum class type : uint32_t] *)
Inductive type : Set := undefined | progbits.

Definition type_code (t : type) : Z :=
  match t with
  | undefined => 0
  | progbits => 1
  end.

Record header : Type := {
  e_ident : list byte;
  e_type : Z;
  e_machine : Z;
  e_version : Z;
  e_entry : Z;
  e_phoff : Z;
  e_shoff : Z;
  e_flags : Z;
  e_ehsize : Z;
  e_phentsize : Z;
  e_phnum : Z;
  e_shentsize : Z;
  e_shnum : Z;
  e_shstrndx : Z
}.

Record sector_header : Type := {
  sh_name : Z;
  sh_type : Z;
  sh_flags : Z;
  sh_addr : Z;
  sh_offset : Z;
  sh_size : Z;
  sh_link : Z;
  sh_info : Z;
  sh_addralign : Z;
  sh_entsize : Z
}.

(** [sizeof(elf::header)]: 16 + 2 + 2 + 5 * 4 + 6 * 2, no padding. *)
Definition sizeof_header : Z := 52.

(** [sizeof(elf::sector_header)]: ten [uint32_t]. *)
Definition sizeof_sector_header : Z := 40.

End elf.

(** [*reinterpret_cast<elf::header*>(raw.data())] *)
Definition decode_header (raw : list byte) : result elf.header :=
  ident ← read_bytes raw 0 (Z.to_nat elf.e_ident_size);
  ty ← read_u16 raw 16;
  machine ← read_u16 raw 18;
  version ← read_u32 raw 20;
  entry ← read_u32 raw 24;
  phoff ← read_u32 raw 28;
  shoff ← read_u32 raw 32;
  flags ← read_u32 raw 36;
  ehsize ← read_u16 raw 40;
  phentsize ← read_u16 raw 42;
  phnum ← read_u16 raw 44;
  shentsize ← read_u16 raw 46;
  shnum ← read_u16 raw 48;
  shstrndx ← read_u16 raw 50;
  Ok {| elf.e_ident := ident; elf.e_type := ty; elf.e_machine := machine;
        elf.e_version := version; elf.e_entry := entry; elf.e_phoff := phoff;
        elf.e_shoff := shoff; elf.e_flags := flags; elf.e_ehsize := ehsize;
        elf.e_phentsize := phentsize; elf.e_phnum := phnum;
        elf.e_shentsize := shentsize; elf.e_shnum := shnum;
        elf.e_shstrndx := shstrndx |}.

(** The [elf::sector_header] overlaid at byte offset [p]. *)
Definition decode_sector_header (raw : list byte) (p : Z)
  : result elf.sector_header :=
  name ← read_u32 raw p;
  ty ← read_u32 raw (p + 4);
  flags ← read_u32 raw (p + 8);
  addr ← read_u32 raw (p + 12);
  offset ← read_u32 raw (p + 16);
  size ← read_u32 raw (p + 20);
  link ← read_u32 raw (p + 24);
  info ← read_u32 raw (p + 28);
  addralign ← read_u32 raw (p + 32);
  entsize ← read_u32 raw (p + 36);
  Ok {| elf.sh_name := name; elf.sh_type := ty; elf.sh_flags := flags;
        elf.sh_addr := addr; elf.sh_offset := offset; elf.sh_size := size;
        elf.sh_link := link; elf.sh_info := info;
        elf.sh_addralign := addralign; elf.sh_entsize := entsize |}.

(** [sections[i]] for
    [sections = reinterpret_cast<elf::sector_header*>(raw.data() + e_shoff)]:
    pointer arithmetic in units of [sizeof(elf::sector_header)]. *)
Definition section_at (raw : list byte) (e_shoff : Z) (i : Z)
  : result elf.sector_header :=
  decode_sector_header raw (e_shoff + i * elf.sizeof_sector_header).

(** The records a successful decode yields, from the total reads. *)
Definition header_at (raw : list byte) : elf.header :=
  {| elf.e_ident := take (Z.to_nat elf.e_ident_size) raw;
     elf.e_type := u16_at raw 16; elf.e_machine := u16_at raw 18;
     elf.e_version := u32_at raw 20; elf.e_entry := u32_at raw 24;
     elf.e_phoff := u32_at raw 28; elf.e_shoff := u32_at raw 32;
     elf.e_flags := u32_at raw 36; elf.e_ehsize := u16_at raw 40;
     elf.e_phentsize := u16_at raw 42; elf.e_phnum := u16_at raw 44;
     elf.e_shentsize := u16_at raw 46; elf.e_shnum := u16_at raw 48;
     elf.e_shstrndx := u16_at raw 50 |}.

Definition sector_header_at (raw : list byte) (p : Z) : elf.sector_header :=
  {| elf.sh_name := u32_at raw p; elf.sh_type := u32_at raw (p + 4);
     elf.sh_flags := u32_at raw (p + 8); elf.sh_addr := u32_at raw (p + 12);
     elf.sh_offset := u32_at raw (p + 16); elf.sh_size := u32_at raw (p + 20);
     elf.sh_link := u32_at raw (p + 24); elf.sh_info := u32_at raw (p + 28);
     elf.sh_addralign := u32_at raw (p + 32);
     elf.sh_entsize := u32_at raw (p + 36) |}.

(** ** [calculate_crc] *)

(** [for (const auto &d: data) ret += d;] on [uint32_t]. *)
Definition calculate_crc (data : list Z) : Z :=
  let ret := fold_left (fun ret d => wrap32 (ret + d)) data 0 in
  wrap32 (0 - ret).

(** The mathematical sum of the words, without wrap-around. *)
Definition sum_words (data : list Z) : Z := fold_right Z.add 0 data.

(** ** The checks of [main] on the buffer *)

#[global] Instance byte_eq_dec : EqDecision byte := Byte.byte_eq_dec.

(** [const std::array<uint8_t, 4> elf_signature = {0x7f, 'E', 'L', 'F'}] *)
Definition elf_signature : list byte :=
  [Byte.x7f; Byte.x45; Byte.x4c; Byte.x46].

(** [std::equal(first1, last1, first2)], the overload without [last2]:
    the [last1 - first1] elements starting at [first2] are compared with
    the first range.  The second range is taken to be that long; where the
    vector is shorter the elements are read past its end. *)
Definition std_equal (first1 : list byte) (raw : list byte) : result bool :=
  second ← read_bytes raw 0 (length first1);
  Ok (bool_decide (first1 = second)).

(** [if (!raw.size())] *)
Definition check_loaded (raw : list byte) : result unit :=
  fail_if (Z.of_nat (length raw) =? 0) EmptyOrUnreadableFile.

(** [if (!std::equal(elf_signature.begin(), elf_signature.end(),
    raw.begin()))] *)
Definition check_signature (raw : list byte) : result unit :=
  same ← std_equal elf_signature raw;
  fail_if (negb same) InvalidSignature.

(** [if (raw.size() < sizeof(elf::header))] *)
Definition check_header_size (raw : list byte) : result unit :=
  fail_if (Z.of_nat (length raw) <? elf.sizeof_header) TooSmallForHeader.

(** [if (header.e_shnum < 2)] *)
Definition check_section_count (header : elf.header) : result unit :=
  fail_if (elf.e_shnum header <? 2) TooFewSections.

(** The right-hand side of
    [raw.size() < (header.e_shoff
                   + (header.e_shnum * sizeof(elf::sector_header)))],
    evaluated on [size_t]. *)
Definition section_table_end (header : elf.header) : Z :=
  wrap_size (elf.e_shoff header
             + wrap_size (elf.e_shnum header * elf.sizeof_sector_header)).

Definition check_section_table (raw : list byte) (header : elf.header)
  : result unit :=
  fail_if (Z.of_nat (length raw) <? section_table_end header)
          TooSmallForSectionTable.

(** The structural checks, in the order of [main]. *)
Definition validate (raw : list byte) : result elf.header :=
  check_signature raw;;
  check_header_size raw;;
  header ← decode_header raw;
  check_section_count header;;
  check_section_table raw header;;
  Ok header.

(** What it is to pass [validate], spelled out. *)
Definition accepted_header (raw : list byte) (header : elf.header) : Prop :=
  4 <= Z.of_nat (length raw)
  /\ take 4 raw = elf_signature
  /\ elf.sizeof_header <= Z.of_nat (length raw)
  /\ header = header_at raw
  /\ 2 <= elf.e_shnum header
  /\ elf.e_shoff header + elf.e_shnum header * elf.sizeof_sector_header
     <= Z.of_nat (length raw).

(** [if (static_cast<elf::type>(vectors.sh_type) != elf::type::progbits)] *)
Definition check_section_type (vectors : elf.sector_header) : result unit :=
  fail_if (negb (elf.sh_type vectors =? elf.type_code elf.progbits))
          WrongSectionType.

(** [if (raw.size() < vectors.sh_offset + (8 * sizeof(uint32_t)))] *)
Definition vector_table_end (vectors : elf.sector_header) : Z :=
  wrap_size (elf.sh_offset vectors + wrap_size (8 * 4)).

Definition check_vector_table (raw : list byte) (vectors : elf.sector_header)
  : result unit :=
  fail_if (Z.of_nat (length raw) <? vector_table_end vectors)
          TooSmallForVectorTable.

(** [const auto& vectors = sections[1];] and the two checks on it. *)
Definition locate (raw : list byte) (header : elf.header)
  : result elf.sector_header :=
  vectors ← section_at raw (elf.e_shoff header) 1;
  check_section_type vectors;;
  check_vector_table raw vectors;;
  Ok vectors.

(** ** Checksum input and the patch *)

(** The loop [for (uint32_t i = 0; i < crc_data.size(); i++)], from index
    [i] for [n] more rounds:
    [ptr = raw.data() + vectors.sh_offset + (i * sizeof(uint32_t))]. *)
Fixpoint fill_crc_data (raw : list byte) (sh_offset : Z) (i : Z) (n : nat)
  : result (list Z) :=
  match n with
  | O => Ok []
  | S n' =>
      d ← read_u32 raw (sh_offset + i * 4);
      ds ← fill_crc_data raw sh_offset (i + 1) n';
      Ok (d :: ds)
  end.

(** [std::array<uint32_t, 7> crc_data] after the loop. *)
Definition get_crc_data (raw : list byte) (sh_offset : Z) : result (list Z) :=
  fill_crc_data raw sh_offset 0 7.

(** [location[k] = v]: a store inside the vector; outside it is undefined. *)
Definition store_u8 (raw : list byte) (p : Z) (v : Z) : result (list byte) :=
  if decide (Z.to_nat p < length raw)%nat
  then Ok (<[Z.to_nat p := to_byte v]> raw)
  else Undefined.

(** The four stores at
    [location = raw.data() + vectors.sh_offset + (7 * sizeof(uint32_t))]. *)
Definition patch_crc (raw : list byte) (sh_offset : Z) (crc : Z)
  : result (list byte) :=
  let location := sh_offset + 7 * 4 in
  raw ← store_u8 raw location (Z.land crc 255);
  raw ← store_u8 raw (location + 1) (Z.land (Z.shiftr crc 8) 255);
  raw ← store_u8 raw (location + 2) (Z.land (Z.shiftr crc 16) 255);
  store_u8 raw (location + 3) (Z.land (Z.shiftr crc 24) 255).

(** Everything [main] does to the buffer between loading and writing
    back: the patched buffer and the checksum. *)
Definition process (raw : list byte) : result (list byte * Z) :=
  check_loaded raw;;
  header ← validate raw;
  vectors ← locate raw header;
  crc_data ← get_crc_data raw (elf.sh_offset vectors);
  let crc := calculate_crc crc_data in
  raw' ← patch_crc raw (elf.sh_offset vectors) crc;
  Ok (raw', crc).

(** The buffer part of [process]: decode, checksum, patch. *)
Definition patch_image (raw : list byte) : result (list byte) :=
  r ← process raw;
  Ok r.1.

(** ** Standard output *)

Definition banner : string := "ELFdwt for little endian".

Definition completion_line : string := "Processing completed, success".

(** The text after [Error: ] at each [return -1]. *)
Definition error_text (e : error) : string :=
  match e with
  | MissingArgument => "argument expected"
  | EmptyOrUnreadableFile => "could not open file"
  | InvalidSignature => "invalid elf file (no header)"
  | TooSmallForHeader => "invalid elf file (file to small, header)"
  | TooFewSections => "invalid elf file (not enough sections)"
  | TooSmallForSectionTable => "invalid elf file (file to small, sections)"
  | WrongSectionType => "first section does not have the progbits flag set"
  | TooSmallForVectorTable => "invalid elf file (file to small, vectors)"
  end.

Definition error_line (e : error) : string := "Error: " +:+ error_text e.

Definition hex_digit (d : Z) : ascii :=
  if d <? 10 then ascii_of_nat (Z.to_nat (48 + d))
  else ascii_of_nat (Z.to_nat (97 + (d - 10))).

(** The low [n] hexadecimal digits of [x], most significant first. *)
Fixpoint hex_digits (n : nat) (x : Z) (acc : string) : string :=
  match n with
  | O => acc
  | S n' => hex_digits n' (x / 16) (String (hex_digit (x mod 16)) acc)
  end.

(** [std::hex << std::setfill('0') << std::setw(8) << x] for [x < 2^32]. *)
Definition hex8 (x : Z) : string := hex_digits 8 x "".

(** The line reporting the range and the checksum: [0x0],
    [(crc_data.size() - 1) * sizeof(uint32_t)] and
    [crc_data.size() * sizeof(uint32_t)], then [crc]. *)
Definition signature_line (crc : Z) : string :=
  "Signature over range: 0x" +:+ hex8 0 +:+ " - " +:+ hex8 ((7 - 1) * 4)
  +:+ ": " +:+ hex8 (7 * 4) +:+ " = " +:+ hex8 crc.

(** ** Files *)

Abbreviation filesys := (gmap string (list byte)).

(** [get_raw_file]: the whole file; a file that cannot be opened gives an
    empty vector, as the stream iterator of a failed stream is the end
    iterator. *)
Definition get_raw_file (file : string) (fs : filesys) : list byte :=
  default [] (fs !! file).

(** What the environment does with
    [std::ofstream output(argv[1], std::ios::binary)] and the copy into
    it: all bytes arrive, the file cannot be opened (nothing is
    truncated), or the stream fails after [n] bytes. *)
Inductive write_fault : Set :=
| WriteOk
| OpenFails
| FailsAfter (n : nat).

Definition write_file (wf : write_fault) (file : string) (data : list byte)
    (fs : filesys) : filesys :=
  match wf with
  | WriteOk => <[file := data]> fs
  | OpenFails => fs
  | FailsAfter n => <[file := take n data]> fs
  end.

(** Whether the whole buffer reached the file. *)
Definition write_succeeded (wf : write_fault) (data : list byte) : bool :=
  match wf with
  | WriteOk => true
  | OpenFails => false
  | FailsAfter n => bool_decide (length data ≤ n)%nat
  end.

(** ** [main] *)

(** One run of the program.  [outcome] is [Ok tt] when control reaches the
    end of [main], [Fail e] at the [return -1] named [e], and [Undefined]
    when the run reads or writes outside the buffer; in that last case the
    other fields say nothing about the real program. *)
Record run : Type := {
  outcome : result unit;
  stdout : list string;
  disk : filesys;
  opened_for_write : list string
}.

(** The value [main] returns: [-1] at an error, [0] at its end. *)
Definition exit_code (r : run) : option Z :=
  match outcome r with
  | Ok _ => Some 0
  | Fail _ => Some (-1)
  | Undefined => None
  end.

Definition abort (e : error) (fs : filesys) : run :=
  {| outcome := Fail e; stdout := [banner; error_line e]; disk := fs;
     opened_for_write := [] |}.

Definition main (argv : list string) (wf : write_fault) (fs : filesys) : run :=
  match argv with
  | _ :: file :: _ =>
      let raw := get_raw_file file fs in
      match process raw with
      | Ok (raw', crc) =>
          {| outcome := Ok tt;
             stdout := [banner; signature_line crc; completion_line];
             disk := write_file wf file raw' fs;
             opened_for_write := [file] |}
      | Fail e => abort e fs
      | Undefined =>
          {| outcome := Undefined; stdout := [banner]; disk := fs;
             opened_for_write := [] |}
      end
  | _ => abort MissingArgument fs
  end.

(** ** Fixture images *)

Definition le16 (x : Z) : list byte := [to_byte x; to_byte (Z.shiftr x 8)].

Definition le32 (x : Z) : list byte :=
  [to_byte x; to_byte (Z.shiftr x 8); to_byte (Z.shiftr x 16);
   to_byte (Z.shiftr x 24)].

(** An ELF32 little-endian header with the given section-table fields. *)
Definition fixture_header (shoff shentsize shnum : Z) : list byte :=
  elf_signature ++ [Byte.x01; Byte.x01; Byte.x01] ++ replicate 9 Byte.x00
  ++ le16 2 ++ le16 40 ++ le32 1 ++ le32 0 ++ le32 0 ++ le32 shoff ++ le32 0
  ++ le16 52 ++ le16 0 ++ le16 0 ++ le16 shentsize ++ le16 shnum ++ le16 0.

(** A section header with the given name, type and file offset. *)
Definition fixture_section (name ty offset : Z) : list byte :=
  le32 name ++ le32 ty ++ le32 0 ++ le32 0 ++ le32 offset ++ le32 32
  ++ le32 0 ++ le32 0 ++ le32 4 ++ le32 0.

Definition null_section : list byte := replicate 40 Byte.x00.

(** Header, null section, one PROGBITS section at offset 132, and a vector
    table with the words 1..7 and an empty checksum slot. *)
Definition good_image : list byte :=
  fixture_header 52 40 2 ++ null_section ++ fixture_section 1 1 132
  ++ le32 1 ++ le32 2 ++ le32 3 ++ le32 4 ++ le32 5 ++ le32 6 ++ le32 7
  ++ le32 0.

(** The section table ends exactly at the end of the file (132 bytes);
    the vector table is read from the start of the file. *)
Definition exact_image : list byte :=
  fixture_header 52 40 2 ++ null_section ++ fixture_section 1 1 0.

(** Scenario C: section 1 has type 0. *)
Definition type0_image : list byte :=
  fixture_header 52 40 2 ++ null_section ++ fixture_section 1 0 132
  ++ replicate 32 Byte.x00.

(** Scenario E: 31 bytes from section 1's offset to the end of the file. *)
Definition short_vector_image : list byte := take 163 good_image.

(** A header that declares 80-byte section entries.  The entry at
    [e_shoff + 80] names section 2 with its table at 204; the bytes at
    [e_shoff + 40] decode to an entry with name 1 and offset 172. *)
Definition stride_image : list byte :=
  fixture_header 52 80 2 ++ null_section ++ fixture_section 1 1 172
  ++ fixture_section 2 1 204 ++ replicate 64 Byte.x00.

(** A three-byte file holding the first three signature bytes. *)
Definition short_file : list byte := [Byte.x7f; Byte.x45; Byte.x4c].

(** The command line [elfdwt a.elf] and a disk holding one file. *)
Definition fixture_argv : list string := ["elfdwt"; "a.elf"].

Definition disk_with (content : list byte) : filesys :=
  {[ "a.elf" := content ]}.

(** ** Reading the error lines *)

(** Whether [needle] occurs in [line]. *)
Fixpoint occurs (needle line : string) : bool :=
  if String.prefix needle line then true
  else match line with
       | EmptyString => false
       | String _ rest => occurs needle rest
       end.

(** A line that names the file format, as the messages of the structural
    checks do ([invalid elf file ...]). *)
Definition elf_specific (line : string) : bool :=
  occurs "elf" line || occurs "ELF" line.

(** The seven words a successful [get_crc_data] yields. *)
Definition crc_words (raw : list byte) (sh_offset : Z) : list Z :=
  map (fun i => u32_at raw (sh_offset + i * 4)) [0; 1; 2; 3; 4; 5; 6].

(** [raw] with the four bytes at [sh_offset + 28] replaced by the
    little-endian bytes of [crc]. *)
Definition with_checksum (raw : list byte) (sh_offset crc : Z) : list byte :=
  take (Z.to_nat sh_offset + 28) raw ++ le32 crc
  ++ drop (Z.to_nat sh_offset + 32) raw.

(** ** Where the checksum word lies *)

(** The byte ranges [p, p + n) and [q, q + m) do not meet. *)
Definition apart (p n q m : Z) : Prop := p + n <= q \/ q + m <= p.

(** The checksum word [sh_offset + 28, sh_offset + 32) meets none of the
    fields the checks read after the signature: [e_shoff] (bytes 32..35),
    [e_shnum] (bytes 48..49), and [sh_type] and [sh_offset] of section 1. *)
Definition checksum_slot_apart (header : elf.header)
    (vectors : elf.sector_header) : Prop :=
  let slot := elf.sh_offset vectors + 28 in
  let section1 := elf.e_shoff header + elf.sizeof_sector_header in
  apart slot 4 32 4 /\ apart slot 4 48 2
  /\ apart slot 4 (section1 + 4) 4 /\ apart slot 4 (section1 + 16) 4.

(** Decode, checksum and patch, applied a second time to its own result. *)
Definition patch_image_twice (raw : list byte) : result (list byte) :=
  once ← patch_image raw;
  patch_image once.

(** Section 1 places the vector table at offset 80, inside the section
    table: the seven words end with the first four fields of section 1
    and add up to 2^32, and the checksum word is section 1's own
    [sh_offset] field (bytes 108..111). *)
Definition overlap_image : list byte :=
  fixture_header 52 40 2 ++ null_section ++ fixture_section 4294967295 1 80.

(** [good_image] with the checksum of its table already in the slot. *)
Definition signed_image : list byte := take 160 good_image ++ le32 4294967268.

(** The checks of [main] between the load and the checksum: the
    validator, then the locator. *)
Definition checks (raw : list byte) : result elf.sector_header :=
  header ← validate raw;
  locate raw header.

(** The outcome of the checks as far as the rest of [main] uses it: which
    exit is taken, or the file offset of the vector table. *)
Definition verdict (raw : list byte) : result Z :=
  vectors ← checks raw;
  Ok (elf.sh_offset vectors).

(** [good_image] with the data-encoding byte of [e_ident] (index 5) set
    to 2, the mark of a big-endian file. *)
Definition big_endian_image : list byte := <[5%nat := Byte.x02]> good_image.

(** A disk with the file to patch and a second file next to it. *)
Definition two_file_disk : filesys :=
  <[ "b.bin" := [Byte.x01; Byte.x02] ]> (disk_with good_image).

(** The constant part of the report line. *)
Definition signature_prefix : string :=
  "Signature over range: 0x00000000 - 00000018: 0000001c = ".

(** * Properties *)

(** ** Machine integers *)

Lemma wrap32_range (x : Z) : is_u32 (wrap32 x).
Proof. unfold is_u32, wrap32. apply Z.mod_pos_bound. lia. Qed.

Lemma wrap32_small (x : Z) : is_u32 x -> wrap32 x = x.
Proof. unfold is_u32, wrap32. intros H. apply Z.mod_small. exact H. Qed.

Lemma wrap_size_small (x : Z) : 0 <= x < 2 ^ 64 -> wrap_size x = x.
Proof. unfold wrap_size, size_bits. intros H. apply Z.mod_small. exact H. Qed.

Lemma u8_range (b : byte) : 0 <= u8 b < 256.
Proof.
  unfold u8. pose proof (Byte.to_N_bounded b) as H. lia.
Qed.

Lemma u8_to_byte (x : Z) : u8 (to_byte x) = x mod 256.
Proof.
  unfold u8, to_byte.
  assert (Hr : 0 <= x mod 256 < 256) by (apply Z.mod_pos_bound; lia).
  destruct (Byte.of_N (Z.to_N (x mod 256))) as [b|] eqn:E.
  - apply Byte.to_of_N in E. rewrite E. lia.
  - apply Byte.of_N_None_iff in E. lia.
Qed.

Lemma to_byte_u8 (b : byte) : to_byte (u8 b) = b.
Proof.
  unfold to_byte. rewrite Z.mod_small by apply u8_range.
  unfold u8. rewrite N2Z.id, Byte.of_to_N. reflexivity.
Qed.

(** ** [calculate_crc] *)

Lemma crc_loop_sum (data : list Z) (ret : Z) :
  fold_left (fun ret d => wrap32 (ret + d)) data ret mod 2 ^ 32
  = (ret + sum_words data) mod 2 ^ 32.
Proof.
  revert ret. induction data as [|d data IH]; intros ret; simpl.
  - f_equal. lia.
  - rewrite IH. unfold wrap32. rewrite Zplus_mod_idemp_l. f_equal. lia.
Qed.

Lemma crc_loop_range (data : list Z) (ret : Z) :
  is_u32 ret -> is_u32 (fold_left (fun ret d => wrap32 (ret + d)) data ret).
Proof.
  revert ret. induction data as [|d data IH]; intros ret Hret; simpl.
  - exact Hret.
  - apply IH, wrap32_range.
Qed.

Lemma calculate_crc_eq (data : list Z) :
  calculate_crc data = (0 - sum_words data) mod 2 ^ 32.
Proof.
  unfold calculate_crc.
  set (ret := fold_left _ data 0).
  assert (Hs : ret mod 2 ^ 32 = sum_words data mod 2 ^ 32).
  { subst ret. rewrite crc_loop_sum. f_equal. }
  unfold wrap32. rewrite Zminus_mod, Hs, <- Zminus_mod. reflexivity.
Qed.

Lemma calculate_crc_sum_zero (data : list Z) :
  (sum_words data + calculate_crc data) mod 2 ^ 32 = 0.
Proof.
  rewrite calculate_crc_eq, Zplus_mod_idemp_r.
  replace (sum_words data + (0 - sum_words data)) with 0 by lia.
  reflexivity.
Qed.

(** C1. For every array of seven unsigned 32-bit words, [calculate_crc]
    returns [(0 - (w0 + ... + w6)) mod 2^32]; the sum of the seven words
    and the checksum is congruent to 0 modulo 2^32; the result is again an
    unsigned 32-bit word.  [calculate_crc] is a function defined on every
    list of words: it is total (wrap-around, no overflow error) and
    deterministic. *)
Theorem calculate_crc_spec (data : list Z) :
  length data = 7%nat ->
  Forall is_u32 data ->
  calculate_crc data = (0 - sum_words data) mod 2 ^ 32
  /\ (sum_words data + calculate_crc data) mod 2 ^ 32 = 0
  /\ is_u32 (calculate_crc data).
Proof.
  intros _ _. split; [apply calculate_crc_eq|].
  split; [apply calculate_crc_sum_zero|].
  apply wrap32_range.
Qed.

(** Scenario D of the specification: the words 1..7 give [0xFFFFFFE4]. *)
Lemma calculate_crc_spec_witness :
  calculate_crc [1; 2; 3; 4; 5; 6; 7] = 4294967268
  /\ (sum_words [1; 2; 3; 4; 5; 6; 7]
      + calculate_crc [1; 2; 3; 4; 5; 6; 7]) mod 2 ^ 32 = 0.
Proof.
  destruct (calculate_crc_spec [1; 2; 3; 4; 5; 6; 7]) as (H1 & H2 & _).
  - reflexivity.
  - repeat constructor; unfold is_u32; lia.
  - split; [rewrite H1; reflexivity | exact H2].
Defined.

(** ** Reads inside the buffer *)

Lemma lookup_in_bounds (raw : list byte) (p : Z) :
  0 <= p < Z.of_nat (length raw) -> is_Some (raw !! Z.to_nat p).
Proof. intros H. apply lookup_lt_is_Some. lia. Qed.

Lemma read_u8_ok (raw : list byte) (p : Z) :
  0 <= p < Z.of_nat (length raw) -> read_u8 raw p = Ok (byte_at raw p).
Proof.
  intros H. unfold read_u8, byte_at.
  destruct (lookup_in_bounds raw p H) as [b ->]. reflexivity.
Qed.

Lemma read_u16_ok (raw : list byte) (p : Z) :
  0 <= p -> p + 2 <= Z.of_nat (length raw) ->
  read_u16 raw p = Ok (u16_at raw p).
Proof.
  intros H0 H1. unfold read_u16, u16_at.
  rewrite !read_u8_ok by lia. reflexivity.
Qed.

Lemma read_u32_ok (raw : list byte) (p : Z) :
  0 <= p -> p + 4 <= Z.of_nat (length raw) ->
  read_u32 raw p = Ok (u32_at raw p).
Proof.
  intros H0 H1. unfold read_u32, u32_at.
  rewrite !read_u8_ok by lia. reflexivity.
Qed.

Lemma read_bytes_ok (raw : list byte) (n : nat) (p : Z) :
  0 <= p -> p + Z.of_nat n <= Z.of_nat (length raw) ->
  read_bytes raw p n = Ok (take n (drop (Z.to_nat p) raw)).
Proof.
  revert p. induction n as [|n IH]; intros p H0 H1.
  - reflexivity.
  - cbn [read_bytes].
    destruct (lookup_in_bounds raw p ltac:(lia)) as [b Hb]. rewrite Hb.
    rewrite IH by lia. cbn.
    rewrite (drop_S _ _ _ Hb). cbn.
    replace (Z.to_nat (p + 1)) with (S (Z.to_nat p)) by lia. reflexivity.
Qed.

Lemma read_bytes_short (raw : list byte) (n : nat) (p : Z) :
  0 <= p <= Z.of_nat (length raw) ->
  Z.of_nat (length raw) < p + Z.of_nat n ->
  read_bytes raw p n = Undefined.
Proof.
  revert p. induction n as [|n IH]; intros p H0 H1.
  - lia.
  - cbn [read_bytes].
    destruct (raw !! Z.to_nat p) as [b|] eqn:Hb; [|reflexivity].
    apply lookup_lt_Some in Hb. rewrite IH by lia. reflexivity.
Qed.

Lemma lor_bound (n a b : Z) :
  0 <= n -> 0 <= a < 2 ^ n -> 0 <= b < 2 ^ n -> 0 <= Z.lor a b < 2 ^ n.
Proof.
  intros Hn Ha Hb.
  assert (H0 : 0 <= Z.lor a b) by (apply Z.lor_nonneg; lia).
  split; [exact H0|].
  destruct (Z.eq_dec (Z.lor a b) 0) as [->|Hne]; [lia|].
  apply Z.log2_lt_pow2; [lia|].
  rewrite Z.log2_lor by lia.
  destruct (Z.eq_dec a 0) as [->|Ha0], (Z.eq_dec b 0) as [->|Hb0];
    cbn [Z.log2]; try (rewrite Z.lor_0_l in Hne || rewrite Z.lor_0_r in Hne);
    try lia.
  - rewrite Z.max_r by apply Z.log2_nonneg. apply Z.log2_lt_pow2; lia.
  - rewrite Z.max_l by apply Z.log2_nonneg. apply Z.log2_lt_pow2; lia.
  - apply Z.max_lub_lt; apply Z.log2_lt_pow2; lia.
Qed.

Lemma byte_at_range (raw : list byte) (p : Z) : 0 <= byte_at raw p < 256.
Proof.
  unfold byte_at. destruct (raw !! Z.to_nat p); [apply u8_range | lia].
Qed.

Lemma u16_at_range (raw : list byte) (p : Z) : is_u16 (u16_at raw p).
Proof.
  unfold is_u16, u16_at.
  pose proof (byte_at_range raw p). pose proof (byte_at_range raw (p + 1)).
  apply lor_bound; [lia | lia |].
  rewrite Z.shiftl_mul_pow2 by lia. lia.
Qed.

Lemma u32_at_range (raw : list byte) (p : Z) : is_u32 (u32_at raw p).
Proof. apply wrap32_range. Qed.

Lemma decode_header_ok (raw : list byte) :
  elf.sizeof_header <= Z.of_nat (length raw) ->
  decode_header raw = Ok (header_at raw).
Proof.
  unfold elf.sizeof_header. intros H. unfold decode_header, header_at.
  rewrite read_bytes_ok by (unfold elf.e_ident_size; lia).
  rewrite !read_u16_ok, !read_u32_ok by lia.
  reflexivity.
Qed.

Lemma decode_sector_header_ok (raw : list byte) (p : Z) :
  0 <= p -> p + elf.sizeof_sector_header <= Z.of_nat (length raw) ->
  decode_sector_header raw p = Ok (sector_header_at raw p).
Proof.
  unfold elf.sizeof_sector_header. intros H0 H1.
  unfold decode_sector_header, sector_header_at.
  rewrite !read_u32_ok by lia.
  reflexivity.
Qed.

(** ** The structural validator *)

Lemma std_equal_ok (raw : list byte) :
  4 <= Z.of_nat (length raw) ->
  std_equal elf_signature raw = Ok (bool_decide (elf_signature = take 4 raw)).
Proof.
  intros H. unfold std_equal.
  rewrite read_bytes_ok by (cbn; lia). reflexivity.
Qed.

Lemma std_equal_short (raw : list byte) :
  Z.of_nat (length raw) < 4 -> std_equal elf_signature raw = Undefined.
Proof.
  intros H. unfold std_equal.
  rewrite read_bytes_short by (cbn; lia). reflexivity.
Qed.

(** One step of a computation in [result]: reduce the binds whose head is
    known, leaving the records alone. *)
Ltac run_result :=
  cbn [mbind result_bind mret result_ret fail_if negb].

Lemma fail_if_ok (cond : bool) (e : error) :
  fail_if cond e = Ok tt <-> cond = false.
Proof. destruct cond; cbn; split; congruence. Qed.

Lemma fail_if_fail (cond : bool) (e e' : error) :
  fail_if cond e = Fail e' <-> cond = true /\ e' = e.
Proof. destruct cond; cbn; split; try intros [? ?]; try split; congruence. Qed.

Lemma e_shnum_range (raw : list byte) : is_u16 (elf.e_shnum (header_at raw)).
Proof. apply u16_at_range. Qed.

Lemma e_shoff_range (raw : list byte) : is_u32 (elf.e_shoff (header_at raw)).
Proof. apply u32_at_range. Qed.

(** On [size_t] of 64 bits the bound of the section table does not wrap. *)
Lemma section_table_end_exact (raw : list byte) :
  section_table_end (header_at raw)
  = elf.e_shoff (header_at raw)
    + elf.e_shnum (header_at raw) * elf.sizeof_sector_header.
Proof.
  unfold section_table_end, elf.sizeof_sector_header.
  pose proof (e_shnum_range raw) as Hn. pose proof (e_shoff_range raw) as Ho.
  unfold is_u16, is_u32 in *.
  rewrite (wrap_size_small (_ * 40)) by lia.
  apply wrap_size_small. lia.
Qed.

Lemma vector_table_end_exact (raw : list byte) (p : Z) :
  vector_table_end (sector_header_at raw p)
  = elf.sh_offset (sector_header_at raw p) + 32.
Proof.
  unfold vector_table_end. cbn [elf.sh_offset sector_header_at].
  pose proof (u32_at_range raw (p + 16)) as Ho. unfold is_u32 in Ho.
  rewrite (wrap_size_small (8 * 4)) by lia.
  apply wrap_size_small. lia.
Qed.

Lemma validate_Ok_iff (raw : list byte) (header : elf.header) :
  validate raw = Ok header <-> accepted_header raw header.
Proof.
  unfold accepted_header, validate, check_signature, check_header_size,
    check_section_count, check_section_table.
  destruct (Z_lt_le_dec (Z.of_nat (length raw)) 4) as [Hs|Hs].
  { rewrite std_equal_short by exact Hs. split; [discriminate | lia]. }
  rewrite std_equal_ok by exact Hs. run_result.
  case_bool_decide as Hsig; run_result;
    [|split; [discriminate | intros (_ & E & _); congruence]].
  destruct (Z.ltb_spec (Z.of_nat (length raw)) elf.sizeof_header) as [Hh|Hh];
    run_result.
  { split; [discriminate | lia]. }
  rewrite decode_header_ok by exact Hh. run_result.
  destruct (Z.ltb_spec (elf.e_shnum (header_at raw)) 2) as [Hn|Hn]; run_result.
  { split; [discriminate | intros (_ & _ & _ & -> & ? & _); lia]. }
  rewrite section_table_end_exact.
  destruct (Z.ltb_spec (Z.of_nat (length raw))
              (elf.e_shoff (header_at raw)
               + elf.e_shnum (header_at raw) * elf.sizeof_sector_header))
    as [Ht|Ht]; run_result.
  { split; [discriminate | intros (_ & _ & _ & -> & _ & ?); lia]. }
  split.
  - intros [= <-]. repeat split; auto.
  - intros (_ & _ & _ & -> & _). reflexivity.
Qed.

Lemma check_signature_Ok (raw : list byte) :
  check_signature raw = Ok tt ->
  4 <= Z.of_nat (length raw) /\ take 4 raw = elf_signature.
Proof.
  unfold check_signature.
  destruct (Z_lt_le_dec (Z.of_nat (length raw)) 4) as [Hs|Hs].
  { rewrite std_equal_short by exact Hs. discriminate. }
  rewrite std_equal_ok by exact Hs. run_result.
  case_bool_decide; run_result; [auto | discriminate].
Qed.

Lemma check_header_size_Ok (raw : list byte) :
  check_header_size raw = Ok tt ->
  elf.sizeof_header <= Z.of_nat (length raw).
Proof.
  unfold check_header_size. intros H%fail_if_ok. lia.
Qed.

(** C5. For an image that passed the signature, header-size and
    section-count checks, the section-table check passes (and with it the
    whole validator) when the length is exactly
    [e_shoff + e_shnum * sizeof(elf::sector_header)], with 40-byte entries,
    and fails with [TooSmallForSectionTable], an error other than
    [TooFewSections], when the image is one byte shorter. *)
Theorem section_table_boundary (raw : list byte) (header : elf.header) :
  check_signature raw = Ok tt ->
  check_header_size raw = Ok tt ->
  decode_header raw = Ok header ->
  check_section_count header = Ok tt ->
  elf.sizeof_sector_header = 40
  /\ (Z.of_nat (length raw)
      = elf.e_shoff header + elf.e_shnum header * elf.sizeof_sector_header ->
      check_section_table raw header = Ok tt /\ validate raw = Ok header)
  /\ (Z.of_nat (length raw)
      = elf.e_shoff header + elf.e_shnum header * elf.sizeof_sector_header - 1 ->
      check_section_table raw header = Fail TooSmallForSectionTable
      /\ validate raw = Fail TooSmallForSectionTable)
  /\ TooSmallForSectionTable <> TooFewSections.
Proof.
  intros Hsig Hsize Hdec Hcount.
  pose proof (check_header_size_Ok raw Hsize) as Hlen.
  rewrite decode_header_ok in Hdec by exact Hlen.
  injection Hdec as <-.
  assert (Hv : validate raw = (check_section_table raw (header_at raw);;
                               Ok (header_at raw))).
  { unfold validate. rewrite Hsig, Hsize. run_result.
    rewrite decode_header_ok by exact Hlen. run_result.
    rewrite Hcount. reflexivity. }
  rewrite Hv. unfold check_section_table.
  rewrite section_table_end_exact.
  split; [reflexivity|]. split; [|split; [|discriminate]]; intros Hl.
  - rewrite (proj2 (Z.ltb_ge _ _)) by lia. run_result. auto.
  - rewrite (proj2 (Z.ltb_lt _ _)) by lia. run_result. auto.
Qed.

Lemma section_table_boundary_witness :
  validate exact_image = Ok (header_at exact_image)
  /\ validate (take 131 exact_image) = Fail TooSmallForSectionTable.
Proof.
  split.
  - destruct (section_table_boundary exact_image (header_at exact_image))
      as (_ & H & _); [vm_compute; reflexivity ..|].
    apply H. vm_compute. reflexivity.
  - destruct (section_table_boundary (take 131 exact_image)
                (header_at (take 131 exact_image)))
      as (_ & _ & H & _); [vm_compute; reflexivity ..|].
    apply H. vm_compute. reflexivity.
Defined.

(** Scenario B: [e_shnum = 1] is rejected with [TooFewSections]. *)
Example one_section_rejected :
  validate (fixture_header 52 40 1 ++ null_section) = Fail TooFewSections.
Proof. vm_compute. reflexivity. Qed.

(** ** The vector-table locator *)

Lemma accepted_section_1 (raw : list byte) (header : elf.header) :
  validate raw = Ok header ->
  section_at raw (elf.e_shoff header) 1
  = Ok (sector_header_at raw (elf.e_shoff header + 40)).
Proof.
  intros (_ & _ & _ & -> & Hn & Ht)%validate_Ok_iff.
  pose proof (e_shoff_range raw) as Ho. unfold is_u32 in Ho.
  unfold elf.sizeof_sector_header in Ht.
  unfold section_at. rewrite decode_sector_header_ok.
  - reflexivity.
  - unfold elf.sizeof_sector_header. lia.
  - unfold elf.sizeof_sector_header. lia.
Qed.

Lemma locate_cases (raw : list byte) (header : elf.header) :
  validate raw = Ok header ->
  let vectors := sector_header_at raw (elf.e_shoff header + 40) in
  locate raw header
  = if negb (elf.sh_type vectors =? 1) then Fail WrongSectionType
    else if Z.of_nat (length raw) <? elf.sh_offset vectors + 32
         then Fail TooSmallForVectorTable
         else Ok vectors.
Proof.
  intros Hv vectors. subst vectors. unfold locate.
  rewrite (accepted_section_1 raw header Hv). run_result.
  unfold check_section_type, check_vector_table.
  rewrite vector_table_end_exact.
  change (elf.type_code elf.progbits) with 1.
  destruct (elf.sh_type _ =? 1); run_result; [|reflexivity].
  destruct (Z.of_nat (length raw) <? _); reflexivity.
Qed.

(** C2. For an image that passed the validator, the locator reads
    section 1, fails with [WrongSectionType] exactly when its type field
    is not 1 (any other code, 0 included), otherwise fails with
    [TooSmallForVectorTable] exactly when the image is shorter than the
    section's file offset plus 32 bytes, and otherwise returns the
    section. *)
Theorem locate_spec (raw : list byte) (header : elf.header) :
  validate raw = Ok header ->
  exists vectors,
    section_at raw (elf.e_shoff header) 1 = Ok vectors
    /\ (locate raw header = Fail WrongSectionType
        <-> elf.sh_type vectors <> 1)
    /\ (locate raw header = Fail TooSmallForVectorTable
        <-> elf.sh_type vectors = 1
            /\ Z.of_nat (length raw) < elf.sh_offset vectors + 32)
    /\ (locate raw header = Ok vectors
        <-> elf.sh_type vectors = 1
            /\ elf.sh_offset vectors + 32 <= Z.of_nat (length raw)).
Proof.
  intros Hv. exists (sector_header_at raw (elf.e_shoff header + 40)).
  split; [apply accepted_section_1, Hv|].
  rewrite (locate_cases raw header Hv).
  set (vectors := sector_header_at raw (elf.e_shoff header + 40)).
  destruct (Z.eqb_spec (elf.sh_type vectors) 1) as [Ht|Ht]; cbn [negb];
    [destruct (Z.ltb_spec (Z.of_nat (length raw))
                 (elf.sh_offset vectors + 32)) as [Hl|Hl]|];
    repeat split; try discriminate; try tauto; try lia;
    intros [? ?]; try tauto; lia.
Qed.

Lemma locate_spec_witness :
  exists vectors,
    section_at good_image (elf.e_shoff (header_at good_image)) 1 = Ok vectors
    /\ (locate good_image (header_at good_image) = Fail WrongSectionType
        <-> elf.sh_type vectors <> 1)
    /\ (locate good_image (header_at good_image) = Fail TooSmallForVectorTable
        <-> elf.sh_type vectors = 1
            /\ Z.of_nat (length good_image) < elf.sh_offset vectors + 32)
    /\ (locate good_image (header_at good_image) = Ok vectors
        <-> elf.sh_type vectors = 1
            /\ elf.sh_offset vectors + 32 <= Z.of_nat (length good_image)).
Proof.
  apply (locate_spec good_image (header_at good_image)).
  vm_compute. reflexivity.
Defined.

(** Scenario C: section type 0 gives [WrongSectionType]. *)
Example type0_rejected :
  (header ← validate type0_image; locate type0_image header)
  = Fail WrongSectionType.
Proof. vm_compute. reflexivity. Qed.

(** Scenario E: 31 bytes from the section's offset give
    [TooSmallForVectorTable]; the 32nd byte makes the image pass. *)
Example short_vector_rejected :
  (header ← validate short_vector_image; locate short_vector_image header)
  = Fail TooSmallForVectorTable
  /\ (header ← validate good_image; locate good_image header)
     = Ok (sector_header_at good_image 92).
Proof. vm_compute. split; reflexivity. Qed.

(** C6 (as the code has it). For an image that passed the validator,
    the section header at index [i] below [e_shnum] is the record decoded
    from the bytes at [e_shoff + i * 40], where 40 is
    [sizeof(elf::sector_header)]; the header field [e_shentsize] takes no
    part.  The section the locator returns is the one decoded at
    [e_shoff + 40]. *)
Theorem section_stride (raw : list byte) (header : elf.header) :
  validate raw = Ok header ->
  (forall i, 0 <= i < elf.e_shnum header ->
     section_at raw (elf.e_shoff header) i
     = Ok (sector_header_at raw (elf.e_shoff header + i * 40))
     /\ decode_sector_header raw (elf.e_shoff header + i * 40)
        = Ok (sector_header_at raw (elf.e_shoff header + i * 40)))
  /\ (forall vectors, locate raw header = Ok vectors ->
        decode_sector_header raw (elf.e_shoff header + 40) = Ok vectors).
Proof.
  intros Hv. split.
  - intros i Hi.
    apply validate_Ok_iff in Hv as (_ & _ & _ & -> & Hn & Ht).
    pose proof (e_shoff_range raw) as Ho. unfold is_u32 in Ho.
    unfold elf.sizeof_sector_header in Ht.
    unfold section_at, elf.sizeof_sector_header.
    rewrite decode_sector_header_ok;
      [auto | lia | unfold elf.sizeof_sector_header; nia].
  - intros vectors Hl.
    pose proof (accepted_section_1 raw header Hv) as Hs.
    unfold section_at, elf.sizeof_sector_header in Hs.
    replace (elf.e_shoff header + 1 * 40) with (elf.e_shoff header + 40)
      in Hs by lia.
    rewrite Hs. f_equal.
    rewrite (locate_cases raw header Hv) in Hl. cbv zeta in Hl.
    destruct (negb _); [discriminate|].
    destruct (_ <? _); [discriminate|]. congruence.
Qed.

Lemma section_stride_witness :
  decode_sector_header good_image (elf.e_shoff (header_at good_image) + 40)
  = Ok (sector_header_at good_image 92).
Proof.
  destruct (section_stride good_image (header_at good_image)) as [_ H].
  - vm_compute. reflexivity.
  - apply H. vm_compute. reflexivity.
Defined.

(** C6 as stated fails: [stride_image] declares [e_shentsize = 80]; the
    locator returns the record at [e_shoff + 40], which is not the record
    at [e_shoff + 1 * e_shentsize]. *)
Lemma section_stride_counterexample :
  validate stride_image = Ok (header_at stride_image)
  /\ elf.e_shoff (header_at stride_image) = 52
  /\ elf.e_shentsize (header_at stride_image) = 80
  /\ locate stride_image (header_at stride_image)
     = Ok (sector_header_at stride_image 92)
  /\ decode_sector_header stride_image
       (elf.e_shoff (header_at stride_image)
        + 1 * elf.e_shentsize (header_at stride_image))
     = Ok (sector_header_at stride_image 132)
  /\ sector_header_at stride_image 92 <> sector_header_at stride_image 132.
Proof.
  repeat split; try (vm_compute; reflexivity).
  intros H. apply (f_equal elf.sh_name) in H. vm_compute in H. discriminate.
Qed.

(** ** Short and empty files *)

Lemma process_empty : process [] = Fail EmptyOrUnreadableFile.
Proof. reflexivity. Qed.

(** A non-empty file of fewer than four bytes: the signature comparison
    reads past the end of the vector. *)
Lemma process_short (raw : list byte) :
  0 < Z.of_nat (length raw) < 4 ->
  check_signature raw = Undefined /\ process raw = Undefined.
Proof.
  intros H.
  assert (Hc : check_signature raw = Undefined).
  { unfold check_signature. rewrite std_equal_short by lia. reflexivity. }
  split; [exact Hc|].
  unfold process, check_loaded, validate.
  rewrite (proj2 (Z.eqb_neq _ _)) by lia. run_result.
  rewrite Hc. reflexivity.
Qed.

(** From four bytes on, the signature comparison stays inside the buffer
    and decides between [InvalidSignature] and the next check. *)
Lemma check_signature_total (raw : list byte) :
  4 <= Z.of_nat (length raw) ->
  check_signature raw
  = if bool_decide (take 4 raw = elf_signature) then Ok tt
    else Fail InvalidSignature.
Proof.
  intros H. unfold check_signature. rewrite std_equal_ok by exact H.
  run_result. repeat case_bool_decide; try reflexivity; congruence.
Qed.

(** C7 (the code at the failing input). On the three-byte file
    [0x7f 'E' 'L'] the signature comparison asks for a fourth byte, which
    the buffer does not have: the read is out of bounds and the run is
    undefined; it does not end with [InvalidSignature]. *)
Theorem short_file_signature_read :
  read_bytes short_file 0 4 = Undefined
  /\ check_signature short_file = Undefined
  /\ outcome (main fixture_argv WriteOk (disk_with short_file)) = Undefined
  /\ outcome (main fixture_argv WriteOk (disk_with short_file))
     <> Fail InvalidSignature
  /\ outcome (main fixture_argv WriteOk (disk_with []))
     = Fail EmptyOrUnreadableFile.
Proof.
  repeat split; try (vm_compute; reflexivity).
  vm_compute. discriminate.
Qed.

(** ** Runs of [main] *)

Lemma main_no_argument (argv : list string) (wf : write_fault) (fs : filesys) :
  (length argv <= 1)%nat -> main argv wf fs = abort MissingArgument fs.
Proof.
  destruct argv as [|prog [|file rest]]; cbn; intros H; try reflexivity; lia.
Qed.

Lemma main_with_file (prog file : string) (rest : list string)
    (wf : write_fault) (fs : filesys) :
  main (prog :: file :: rest) wf fs
  = match process (get_raw_file file fs) with
    | Ok (raw', crc) =>
        {| outcome := Ok tt;
           stdout := [banner; signature_line crc; completion_line];
           disk := write_file wf file raw' fs;
           opened_for_write := [file] |}
    | Fail e => abort e fs
    | Undefined =>
        {| outcome := Undefined; stdout := [banner]; disk := fs;
           opened_for_write := [] |}
    end.
Proof. reflexivity. Qed.

(** C3. Whenever a run ends at one of the checks (no argument, empty or
    unreadable file, signature, header size, section count, section table,
    section type, vector table), [main] returns [-1], which is not 0, has
    printed the banner and the error line, has opened no file for writing,
    and the disk is as it was. *)
Theorem error_exit_leaves_disk (argv : list string) (wf : write_fault)
    (fs : filesys) (e : error) :
  outcome (main argv wf fs) = Fail e ->
  exit_code (main argv wf fs) = Some (-1)
  /\ -1 <> 0
  /\ stdout (main argv wf fs) = [banner; error_line e]
  /\ opened_for_write (main argv wf fs) = []
  /\ disk (main argv wf fs) = fs.
Proof.
  unfold exit_code. intros H. rewrite H.
  assert (Hm : main argv wf fs = abort e fs).
  { destruct argv as [|prog [|file rest]];
      try (cbn in H; injection H as <-; reflexivity).
    rewrite main_with_file in H |- *.
    destruct (process (get_raw_file file fs)) as [[raw' crc]|e'|];
      cbn in H; try discriminate.
    injection H as <-. reflexivity. }
  rewrite Hm. cbn. repeat split; lia.
Qed.

Lemma error_exit_leaves_disk_witness :
  disk (main fixture_argv WriteOk (disk_with type0_image))
  = disk_with type0_image
  /\ stdout (main fixture_argv WriteOk (disk_with type0_image))
     = [banner; error_line WrongSectionType].
Proof.
  destruct (error_exit_leaves_disk fixture_argv WriteOk
              (disk_with type0_image) WrongSectionType)
    as (_ & _ & Hout & _ & Hdisk).
  - vm_compute. reflexivity.
  - split; [exact Hdisk | exact Hout].
Defined.

(** Each of the eight exits is taken by some run. *)
Example every_error_reachable :
  outcome (main ["elfdwt"] WriteOk ∅) = Fail MissingArgument
  /\ outcome (main fixture_argv WriteOk ∅) = Fail EmptyOrUnreadableFile
  /\ outcome (main fixture_argv WriteOk (disk_with (replicate 4 Byte.x00)))
     = Fail InvalidSignature
  /\ outcome (main fixture_argv WriteOk (disk_with elf_signature))
     = Fail TooSmallForHeader
  /\ outcome (main fixture_argv WriteOk
                (disk_with (fixture_header 52 40 1 ++ null_section)))
     = Fail TooFewSections
  /\ outcome (main fixture_argv WriteOk (disk_with (take 131 exact_image)))
     = Fail TooSmallForSectionTable
  /\ outcome (main fixture_argv WriteOk (disk_with type0_image))
     = Fail WrongSectionType
  /\ outcome (main fixture_argv WriteOk (disk_with short_vector_image))
     = Fail TooSmallForVectorTable.
Proof. repeat split; vm_compute; reflexivity. Qed.

(** C8 (as the code has it). The state of the output stream is never
    looked at: once every check has passed, [main] prints the checksum
    line and the completion line and returns 0, whatever became of the
    write; the disk holds whatever the write left there. *)
Theorem write_outcome_ignored (prog file : string) (rest : list string)
    (wf : write_fault) (fs : filesys) (raw' : list byte) (crc : Z) :
  process (get_raw_file file fs) = Ok (raw', crc) ->
  exit_code (main (prog :: file :: rest) wf fs) = Some 0
  /\ stdout (main (prog :: file :: rest) wf fs)
     = [banner; signature_line crc; completion_line]
  /\ opened_for_write (main (prog :: file :: rest) wf fs) = [file]
  /\ disk (main (prog :: file :: rest) wf fs) = write_file wf file raw' fs.
Proof.
  intros H. unfold exit_code. rewrite main_with_file, H. cbn. auto.
Qed.

Lemma write_outcome_ignored_witness :
  exit_code (main fixture_argv (FailsAfter 10) (disk_with good_image))
  = Some 0.
Proof.
  destruct (process (get_raw_file "a.elf" (disk_with good_image)))
    as [[raw' crc]|e|] eqn:E; [|vm_compute in E; discriminate ..].
  apply (write_outcome_ignored "elfdwt" "a.elf" [] (FailsAfter 10)
           (disk_with good_image) raw' crc E).
Defined.

(** C8 as stated fails: the output file cannot be opened, nothing is
    written (the disk still holds the unpatched image, which differs from
    the patched buffer), and the run prints the completion line, no error
    line, and returns 0. *)
Lemma write_failure_counterexample :
  (exists raw' crc,
     process good_image = Ok (raw', crc)
     /\ write_succeeded OpenFails raw' = false
     /\ raw' <> good_image)
  /\ disk (main fixture_argv OpenFails (disk_with good_image))
     = disk_with good_image
  /\ exit_code (main fixture_argv OpenFails (disk_with good_image)) = Some 0
  /\ stdout (main fixture_argv OpenFails (disk_with good_image))
     = [banner; signature_line 4294967268; completion_line].
Proof.
  split; [|repeat split; vm_compute; reflexivity].
  destruct (process good_image) as [[raw' crc]|e|] eqn:E;
    [|vm_compute in E; discriminate ..].
  exists raw', crc. repeat split.
  intros ->. vm_compute in E. discriminate.
Qed.

(** C9 (as the code has it). When the loader yields no bytes, because
    the file is empty or because it cannot be opened, [main] stops with
    [EmptyOrUnreadableFile], prints [Error: could not open file], the same
    line in both cases, returns [-1] and leaves the disk alone. *)
Theorem empty_file_message (prog file : string) (rest : list string)
    (wf : write_fault) (fs : filesys) :
  get_raw_file file fs = [] ->
  outcome (main (prog :: file :: rest) wf fs) = Fail EmptyOrUnreadableFile
  /\ stdout (main (prog :: file :: rest) wf fs)
     = [banner; "Error: could not open file"]
  /\ exit_code (main (prog :: file :: rest) wf fs) = Some (-1)
  /\ -1 <> 0
  /\ opened_for_write (main (prog :: file :: rest) wf fs) = []
  /\ disk (main (prog :: file :: rest) wf fs) = fs.
Proof.
  intros Hr. unfold exit_code. rewrite main_with_file.
  rewrite Hr, process_empty. cbn. repeat split. lia.
Qed.

Lemma empty_file_message_witness :
  stdout (main fixture_argv WriteOk (disk_with []))
  = [banner; "Error: could not open file"]
  /\ stdout (main fixture_argv WriteOk ∅)
     = [banner; "Error: could not open file"].
Proof.
  split.
  - apply (empty_file_message "elfdwt" "a.elf" [] WriteOk (disk_with [])).
    vm_compute. reflexivity.
  - apply (empty_file_message "elfdwt" "a.elf" [] WriteOk ∅).
    vm_compute. reflexivity.
Defined.

(** C9 as stated fails: the line printed for an empty file does not name
    the file format, unlike the lines of the structural checks; it is the
    line of a file that cannot be opened. *)
Lemma empty_file_counterexample :
  stdout (main fixture_argv WriteOk (disk_with []))
  = [banner; error_line EmptyOrUnreadableFile]
  /\ error_line EmptyOrUnreadableFile = "Error: could not open file"
  /\ elf_specific (error_line EmptyOrUnreadableFile) = false
  /\ elf_specific (error_line InvalidSignature) = true
  /\ elf_specific (error_line TooSmallForHeader) = true
  /\ stdout (main fixture_argv WriteOk (disk_with []))
     = stdout (main fixture_argv WriteOk ∅).
Proof. repeat split; vm_compute; reflexivity. Qed.

(** ** The patch *)

Lemma to_byte_land (x : Z) : to_byte (Z.land x 255) = to_byte x.
Proof.
  unfold to_byte. change 255 with (Z.ones 8).
  rewrite Z.land_ones by lia. change (2 ^ 8) with 256.
  rewrite Z.mod_mod by lia. reflexivity.
Qed.

Lemma store4_splice (pre post : list byte) (x0 x1 x2 x3 y0 y1 y2 y3 : byte) :
  <[(length pre + 3)%nat := y3]>
    (<[(length pre + 2)%nat := y2]>
       (<[(length pre + 1)%nat := y1]>
          (<[(length pre + 0)%nat := y0]>
             (pre ++ x0 :: x1 :: x2 :: x3 :: post))))
  = pre ++ y0 :: y1 :: y2 :: y3 :: post.
Proof.
  induction pre as [|a pre IH]; cbn; [reflexivity|].
  f_equal. exact IH.
Qed.

(** A buffer of at least [a + 4] bytes, cut around the four bytes at [a]. *)
Lemma split_around (raw : list byte) (a : nat) :
  (a + 4 <= length raw)%nat ->
  exists x0 x1 x2 x3,
    raw = take a raw ++ x0 :: x1 :: x2 :: x3 :: drop (a + 4) raw.
Proof.
  intros H.
  assert (Hd : length (drop a raw) = (length raw - a)%nat)
    by apply length_drop.
  assert (E4 : drop (a + 4) raw = drop 4 (drop a raw)).
  { rewrite drop_drop. reflexivity. }
  rewrite E4.
  destruct (drop a raw) as [|x0 [|x1 [|x2 [|x3 rest]]]] eqn:E;
    cbn in Hd; try lia.
  exists x0, x1, x2, x3. cbn. rewrite drop_0, <- E. symmetry. apply take_drop.
Qed.

Lemma patch_crc_ok (raw : list byte) (sh_offset crc : Z) :
  0 <= sh_offset -> sh_offset + 32 <= Z.of_nat (length raw) ->
  patch_crc raw sh_offset crc
  = Ok (with_checksum raw sh_offset crc).
Proof.
  intros H0 H1. unfold with_checksum.
  set (a := (Z.to_nat sh_offset + 28)%nat).
  replace (Z.to_nat sh_offset + 32)%nat with (a + 4)%nat by lia.
  destruct (split_around raw a ltac:(lia)) as (x0 & x1 & x2 & x3 & E).
  assert (Hpre : length (take a raw) = a) by (rewrite length_take; lia).
  set (pre := take a raw) in *. set (post := drop (a + 4) raw) in *.
  rewrite E. unfold patch_crc, store_u8.
  replace (Z.to_nat (sh_offset + 7 * 4)) with (length pre + 0)%nat by lia.
  replace (Z.to_nat (sh_offset + 7 * 4 + 1)) with (length pre + 1)%nat by lia.
  replace (Z.to_nat (sh_offset + 7 * 4 + 2)) with (length pre + 2)%nat by lia.
  replace (Z.to_nat (sh_offset + 7 * 4 + 3)) with (length pre + 3)%nat by lia.
  rewrite decide_True by (rewrite length_app; cbn; lia). run_result.
  rewrite decide_True by (rewrite length_insert, length_app; cbn; lia).
  run_result.
  rewrite decide_True by (rewrite !length_insert, length_app; cbn; lia).
  run_result.
  rewrite decide_True by (rewrite !length_insert, length_app; cbn; lia).
  rewrite store4_splice, !to_byte_land. reflexivity.
Qed.

Lemma get_crc_data_ok (raw : list byte) (sh_offset : Z) :
  0 <= sh_offset -> sh_offset + 28 <= Z.of_nat (length raw) ->
  get_crc_data raw sh_offset = Ok (crc_words raw sh_offset).
Proof.
  intros H0 H1. unfold get_crc_data. cbn [fill_crc_data].
  rewrite !read_u32_ok by lia. reflexivity.
Qed.

Lemma length_le32 (x : Z) : length (le32 x) = 4%nat.
Proof. reflexivity. Qed.

Lemma length_with_checksum (raw : list byte) (sh_offset crc : Z) :
  0 <= sh_offset -> sh_offset + 32 <= Z.of_nat (length raw) ->
  length (with_checksum raw sh_offset crc) = length raw.
Proof.
  intros H0 H1. unfold with_checksum.
  rewrite !length_app, length_take, length_drop, length_le32. lia.
Qed.

Lemma lookup_with_checksum_other (raw : list byte) (sh_offset crc : Z)
    (i : nat) :
  0 <= sh_offset -> sh_offset + 32 <= Z.of_nat (length raw) ->
  (i < Z.to_nat sh_offset + 28 \/ Z.to_nat sh_offset + 32 <= i)%nat ->
  with_checksum raw sh_offset crc !! i = raw !! i.
Proof.
  intros H0 H1 Hi. unfold with_checksum.
  set (a := (Z.to_nat sh_offset + 28)%nat).
  assert (Ha : length (take a raw) = a) by (rewrite length_take; lia).
  destruct Hi as [Hi|Hi].
  - rewrite lookup_app_l by lia. apply lookup_take_lt. lia.
  - rewrite lookup_app_r by lia.
    rewrite lookup_app_r by (rewrite length_le32; lia).
    rewrite lookup_drop, Ha, length_le32. f_equal. lia.
Qed.

Lemma slot_with_checksum (raw : list byte) (sh_offset crc : Z) :
  0 <= sh_offset -> sh_offset + 32 <= Z.of_nat (length raw) ->
  take 4 (drop (Z.to_nat sh_offset + 28) (with_checksum raw sh_offset crc))
  = le32 crc.
Proof.
  intros H0 H1. unfold with_checksum.
  set (a := (Z.to_nat sh_offset + 28)%nat).
  assert (Ha : length (take a raw) = a) by (rewrite length_take; lia).
  rewrite drop_app_length' by (symmetry; exact Ha).
  rewrite take_app_length' by reflexivity. reflexivity.
Qed.

Lemma locate_Ok_inv (raw : list byte) (header : elf.header)
    (vectors : elf.sector_header) :
  validate raw = Ok header ->
  locate raw header = Ok vectors ->
  vectors = sector_header_at raw (elf.e_shoff header + 40)
  /\ elf.sh_type vectors = 1
  /\ 0 <= elf.sh_offset vectors
  /\ elf.sh_offset vectors + 32 <= Z.of_nat (length raw).
Proof.
  intros Hv Hl.
  rewrite (locate_cases raw header Hv) in Hl. cbv zeta in Hl.
  destruct (Z.eqb_spec
              (elf.sh_type (sector_header_at raw (elf.e_shoff header + 40)))
              1) as [Ht|Ht]; cbn [negb] in Hl; [|discriminate].
  destruct (Z.ltb_spec (Z.of_nat (length raw))
              (elf.sh_offset
                 (sector_header_at raw (elf.e_shoff header + 40)) + 32))
    as [Hlt|Hge]; [discriminate|].
  injection Hl as <-.
  repeat split; try assumption.
  pose proof (u32_at_range raw (elf.e_shoff header + 40 + 16)) as Hr.
  unfold is_u32 in Hr. cbn. lia.
Qed.

(** An accepted image is patched, and only accepted images are. *)
Lemma process_Ok_iff (raw raw' : list byte) (crc : Z) :
  process raw = Ok (raw', crc)
  <-> exists header vectors,
        validate raw = Ok header
        /\ locate raw header = Ok vectors
        /\ crc = calculate_crc (crc_words raw (elf.sh_offset vectors))
        /\ raw' = with_checksum raw (elf.sh_offset vectors) crc.
Proof.
  unfold process, check_loaded. split.
  - destruct (Z.of_nat (length raw) =? 0); run_result; [discriminate|].
    destruct (validate raw) as [header| |] eqn:Hv; run_result;
      try discriminate.
    destruct (locate raw header) as [vectors| |] eqn:Hl; run_result;
      try discriminate.
    destruct (locate_Ok_inv raw header vectors Hv Hl) as (_ & _ & H0 & H1).
    rewrite get_crc_data_ok by lia. run_result.
    rewrite patch_crc_ok by lia. run_result.
    intros [= <- <-]. exists header, vectors. auto.
  - intros (header & vectors & Hv & Hl & -> & ->).
    pose proof Hv as (Hlen & _)%validate_Ok_iff.
    rewrite (proj2 (Z.eqb_neq _ _)) by lia. run_result.
    rewrite Hv. run_result. rewrite Hl. run_result.
    destruct (locate_Ok_inv raw header vectors Hv Hl) as (_ & _ & H0 & H1).
    rewrite get_crc_data_ok by lia. run_result.
    rewrite patch_crc_ok by lia. reflexivity.
Qed.

(** ** The checksum word is little-endian *)

Lemma testbit_byte_of (x k n : Z) :
  0 <= k -> 0 <= n ->
  Z.testbit (Z.shiftl ((Z.shiftr x k) mod 2 ^ 8) k) n
  = if ((k <=? n) && (n <? k + 8))%bool then Z.testbit x n else false.
Proof.
  intros Hk Hn. rewrite Z.shiftl_spec by lia.
  destruct (Z.leb_spec k n) as [H1|H1]; cbn [andb].
  - destruct (Z.ltb_spec n (k + 8)) as [H2|H2].
    + rewrite Z.mod_pow2_bits_low by lia. rewrite Z.shiftr_spec by lia.
      f_equal. lia.
    + apply Z.mod_pow2_bits_high. lia.
  - apply Z.testbit_neg_r. lia.
Qed.

(** Four bytes cut from a 32-bit word and put together again. *)
Lemma le32_decode (x : Z) :
  is_u32 x ->
  Z.lor (Z.lor (Z.lor (x mod 256) (Z.shiftl ((Z.shiftr x 8) mod 256) 8))
           (Z.shiftl ((Z.shiftr x 16) mod 256) 16))
    (Z.shiftl ((Z.shiftr x 24) mod 256) 24) = x.
Proof.
  unfold is_u32. intros Hx. change 256 with (2 ^ 8).
  replace (x mod 2 ^ 8) with (Z.shiftl ((Z.shiftr x 0) mod 2 ^ 8) 0)
    by (rewrite Z.shiftl_0_r, Z.shiftr_0_r; reflexivity).
  apply Z.bits_inj'. intros n Hn.
  rewrite !Z.lor_spec, !testbit_byte_of by lia.
  destruct (Z.ltb_spec n 32) as [H32|H32].
  - destruct (Z.leb_spec 0 n), (Z.ltb_spec n (0 + 8)), (Z.leb_spec 8 n),
      (Z.ltb_spec n (8 + 8)), (Z.leb_spec 16 n), (Z.ltb_spec n (16 + 8)),
      (Z.leb_spec 24 n), (Z.ltb_spec n (24 + 8)); cbn [andb orb]; try lia;
      destruct (Z.testbit x n); reflexivity.
  - assert (Hh : Z.testbit x n = false).
    { rewrite <- (Z.mod_small x (2 ^ 32)) by lia.
      apply Z.mod_pow2_bits_high. lia. }
    rewrite Hh.
    destruct (_ && _)%bool, (_ && _)%bool, (_ && _)%bool, (_ && _)%bool;
      reflexivity.
Qed.

Lemma byte_at_slot (raw : list byte) (sh_offset crc : Z) (k : nat) :
  0 <= sh_offset -> sh_offset + 32 <= Z.of_nat (length raw) ->
  (k < 4)%nat ->
  byte_at (with_checksum raw sh_offset crc) (sh_offset + 28 + Z.of_nat k)
  = match le32 crc !! k with Some b => u8 b | None => 0 end.
Proof.
  intros H0 H1 Hk. unfold byte_at, with_checksum.
  set (a := (Z.to_nat sh_offset + 28)%nat).
  assert (Ha : length (take a raw) = a) by (rewrite length_take; lia).
  replace (Z.to_nat (sh_offset + 28 + Z.of_nat k)) with (a + k)%nat by lia.
  rewrite lookup_app_r by lia. rewrite Ha.
  replace (a + k - a)%nat with k by lia.
  rewrite lookup_app_l by (rewrite length_le32; lia). reflexivity.
Qed.

(** Reading the patched slot back as a little-endian word gives the
    checksum. *)
Lemma u32_at_slot (raw : list byte) (sh_offset crc : Z) :
  0 <= sh_offset -> sh_offset + 32 <= Z.of_nat (length raw) ->
  is_u32 crc ->
  u32_at (with_checksum raw sh_offset crc) (sh_offset + 28) = crc.
Proof.
  intros H0 H1 Hc. unfold u32_at.
  pose proof (byte_at_slot raw sh_offset crc 0 H0 H1 ltac:(lia)) as B0.
  pose proof (byte_at_slot raw sh_offset crc 1 H0 H1 ltac:(lia)) as B1.
  pose proof (byte_at_slot raw sh_offset crc 2 H0 H1 ltac:(lia)) as B2.
  pose proof (byte_at_slot raw sh_offset crc 3 H0 H1 ltac:(lia)) as B3.
  cbn [le32 lookup list_lookup] in B0, B1, B2, B3.
  rewrite u8_to_byte in B0, B1, B2, B3.
  replace (sh_offset + 28 + Z.of_nat 0) with (sh_offset + 28) in B0 by lia.
  replace (sh_offset + 28 + Z.of_nat 1) with (sh_offset + 28 + 1) in B1 by lia.
  replace (sh_offset + 28 + Z.of_nat 2) with (sh_offset + 28 + 2) in B2 by lia.
  replace (sh_offset + 28 + Z.of_nat 3) with (sh_offset + 28 + 3) in B3 by lia.
  rewrite B0, B1, B2, B3, le32_decode by exact Hc.
  apply wrap32_small, Hc.
Qed.

(** ** A successful run *)

Lemma main_success_inv (prog file : string) (rest : list string)
    (wf : write_fault) (fs : filesys) :
  outcome (main (prog :: file :: rest) wf fs) = Ok tt ->
  exists raw' crc,
    process (get_raw_file file fs) = Ok (raw', crc)
    /\ disk (main (prog :: file :: rest) wf fs) = write_file wf file raw' fs.
Proof.
  rewrite main_with_file.
  destruct (process (get_raw_file file fs)) as [[raw' crc]|e|]; cbn;
    intros H; try discriminate.
  exists raw', crc. auto.
Qed.

Lemma write_file_succeeded (wf : write_fault) (file : string)
    (data : list byte) (fs : filesys) :
  write_succeeded wf data = true ->
  write_file wf file data fs !! file = Some data.
Proof.
  destruct wf as [| |n]; cbn; intros H; try discriminate.
  - apply lookup_insert_eq.
  - apply bool_decide_eq_true in H.
    rewrite lookup_insert_eq, take_ge by lia. reflexivity.
Qed.

(** C4. On a run that reaches the end of [main] and whose write went
    through, the file holds a buffer of the original length; every byte
    outside [sh_offset + 28, sh_offset + 32) of section 1 is the original
    byte; the four bytes there are the little-endian bytes of the checksum
    of the seven words before them, and read back as that checksum. *)
Theorem patched_file (prog file : string) (rest : list string)
    (wf : write_fault) (fs : filesys) (raw : list byte) :
  fs !! file = Some raw ->
  outcome (main (prog :: file :: rest) wf fs) = Ok tt ->
  exists header vectors crc_data raw',
    validate raw = Ok header
    /\ locate raw header = Ok vectors
    /\ get_crc_data raw (elf.sh_offset vectors) = Ok crc_data
    /\ (write_succeeded wf raw' = true ->
        disk (main (prog :: file :: rest) wf fs) !! file = Some raw')
    /\ length raw' = length raw
    /\ (forall i : nat,
          (i < Z.to_nat (elf.sh_offset vectors) + 28
           \/ Z.to_nat (elf.sh_offset vectors) + 32 <= i)%nat ->
          raw' !! i = raw !! i)
    /\ take 4 (drop (Z.to_nat (elf.sh_offset vectors) + 28) raw')
       = le32 (calculate_crc crc_data)
    /\ u32_at raw' (elf.sh_offset vectors + 28) = calculate_crc crc_data.
Proof.
  intros Hfile Hout.
  destruct (main_success_inv prog file rest wf fs Hout)
    as (raw' & crc & Hp & Hdisk).
  unfold get_raw_file in Hp. rewrite Hfile in Hp.
  change (default [] (Some raw)) with raw in Hp.
  apply process_Ok_iff in Hp as (header & vectors & Hv & Hl & Hcrc & Hraw').
  destruct (locate_Ok_inv raw header vectors Hv Hl) as (_ & _ & H0 & H1).
  exists header, vectors, (crc_words raw (elf.sh_offset vectors)), raw'.
  rewrite <- Hcrc. subst raw'.
  split; [exact Hv|]. split; [exact Hl|].
  split; [apply get_crc_data_ok; lia|].
  split; [intros Hw; rewrite Hdisk; apply write_file_succeeded, Hw|].
  split; [apply length_with_checksum; assumption|].
  split; [intros i Hi; apply lookup_with_checksum_other; assumption|].
  split; [apply slot_with_checksum; assumption|].
  apply u32_at_slot; try assumption.
  rewrite Hcrc. apply wrap32_range.
Qed.

(** Scenario F: the fixture with the words 1..7 ends with the bytes
    [e4 ff ff ff] at offset 160 and keeps its 164 bytes. *)
Lemma patched_file_witness :
  exists raw',
    disk (main fixture_argv WriteOk (disk_with good_image)) !! "a.elf"
    = Some raw'
    /\ length raw' = length good_image
    /\ take 4 (drop 160 raw') = le32 4294967268.
Proof.
  destruct (patched_file "elfdwt" "a.elf" [] WriteOk (disk_with good_image)
              good_image)
    as (header & vectors & crc_data & raw' & Hv & Hl & Hc & Hd & Hlen & _
        & Hslot & _).
  - vm_compute. reflexivity.
  - vm_compute. reflexivity.
  - exists raw'. split; [apply Hd; reflexivity|]. split; [exact Hlen|].
    assert (Hh : header = header_at good_image).
    { apply validate_Ok_iff in Hv as (_ & _ & _ & E & _). exact E. }
    subst header.
    assert (Hvec : vectors = sector_header_at good_image 92).
    { vm_compute in Hl. injection Hl as <-. vm_compute. reflexivity. }
    subst vectors.
    assert (Hd' : crc_data = [1; 2; 3; 4; 5; 6; 7]).
    { vm_compute in Hc. injection Hc as <-. reflexivity. }
    subst crc_data. exact Hslot.
Defined.

(** ** Patching a patched image *)

Section Patched.

Variables (raw : list byte) (sh_offset crc : Z).
Hypothesis offset_nonneg : 0 <= sh_offset.
Hypothesis table_inside : sh_offset + 32 <= Z.of_nat (length raw).

Lemma byte_at_other (q : Z) :
  0 <= q -> q < sh_offset + 28 \/ sh_offset + 32 <= q ->
  byte_at (with_checksum raw sh_offset crc) q = byte_at raw q.
Proof using offset_nonneg table_inside.
  intros Hq Hout. unfold byte_at.
  rewrite lookup_with_checksum_other by lia. reflexivity.
Qed.

Lemma u16_at_apart (p : Z) :
  0 <= p -> apart (sh_offset + 28) 4 p 2 ->
  u16_at (with_checksum raw sh_offset crc) p = u16_at raw p.
Proof using offset_nonneg table_inside.
  unfold apart. intros Hp Ha. unfold u16_at.
  rewrite !byte_at_other by lia. reflexivity.
Qed.

Lemma u32_at_apart (p : Z) :
  0 <= p -> apart (sh_offset + 28) 4 p 4 ->
  u32_at (with_checksum raw sh_offset crc) p = u32_at raw p.
Proof using offset_nonneg table_inside.
  unfold apart. intros Hp Ha. unfold u32_at.
  rewrite !byte_at_other by lia. reflexivity.
Qed.

Lemma take_4_patched :
  take 4 (with_checksum raw sh_offset crc) = take 4 raw.
Proof using offset_nonneg table_inside.
  unfold with_checksum.
  rewrite take_app_le by (rewrite length_take; lia).
  rewrite take_take. f_equal. lia.
Qed.

Lemma crc_words_patched :
  crc_words (with_checksum raw sh_offset crc) sh_offset
  = crc_words raw sh_offset.
Proof using offset_nonneg table_inside.
  unfold crc_words. cbn [map].
  rewrite !u32_at_apart by (unfold apart; lia). reflexivity.
Qed.

Lemma with_checksum_again :
  with_checksum (with_checksum raw sh_offset crc) sh_offset crc
  = with_checksum raw sh_offset crc.
Proof using offset_nonneg table_inside.
  unfold with_checksum.
  set (a := (Z.to_nat sh_offset + 28)%nat).
  replace (Z.to_nat sh_offset + 32)%nat with (a + 4)%nat by lia.
  assert (Ha : length (take a raw) = a) by (rewrite length_take; lia).
  f_equal.
  - rewrite take_app_length' by (symmetry; exact Ha). reflexivity.
  - f_equal. rewrite <- drop_drop.
    rewrite drop_app_length' by (symmetry; exact Ha).
    rewrite drop_app_length' by reflexivity. reflexivity.
Qed.

End Patched.

Lemma patch_image_Ok (raw once : list byte) :
  patch_image raw = Ok once <-> exists crc, process raw = Ok (once, crc).
Proof.
  unfold patch_image. split.
  - destruct (process raw) as [[r c]|e|]; run_result; try discriminate.
    cbn. intros [= <-]. exists c. reflexivity.
  - intros [crc ->]. reflexivity.
Qed.

(** C10 (as the code has it). For an image accepted by the validator
    and the locator whose checksum word meets none of the fields the checks
    read ([e_shoff], [e_shnum], section 1's [sh_type] and [sh_offset]), the
    patched image is accepted again and patching it returns it unchanged:
    twice is the same as once. *)
Theorem patch_idempotent (raw once : list byte) (header : elf.header)
    (vectors : elf.sector_header) :
  validate raw = Ok header ->
  locate raw header = Ok vectors ->
  checksum_slot_apart header vectors ->
  patch_image raw = Ok once ->
  patch_image once = Ok once /\ patch_image_twice raw = patch_image raw.
Proof.
  intros Hv Hl Hapart Hp.
  assert (Honce : patch_image once = Ok once); [|split; [exact Honce|]].
  2:{ unfold patch_image_twice. rewrite Hp. run_result. exact Honce. }
  apply patch_image_Ok in Hp as [crc Hp].
  apply process_Ok_iff in Hp as (header' & vectors' & Hv' & Hl' & Hcrc & Hraw).
  rewrite Hv in Hv'. injection Hv' as <-.
  rewrite Hl in Hl'. injection Hl' as <-.
  destruct (locate_Ok_inv raw header vectors Hv Hl) as (Hvec & Hty & H0 & H1).
  pose proof Hv as (Hlen4 & Hsig & Hlen & Hh & Hn & Ht)%validate_Ok_iff.
  unfold elf.sizeof_header, elf.sizeof_sector_header in *.
  destruct Hapart as (A1 & A2 & A3 & A4). cbv zeta in A1, A2, A3, A4.
  unfold elf.sizeof_sector_header in A3, A4.
  pose proof (e_shoff_range raw) as Ho. unfold is_u32 in Ho.
  rewrite <- Hh in Ho.
  assert (Elen : length once = length raw)
    by (rewrite Hraw; apply length_with_checksum; assumption).
  assert (E1 : elf.e_shoff (header_at once) = elf.e_shoff header).
  { rewrite Hh, Hraw. apply u32_at_apart; try assumption. lia. }
  assert (E2 : elf.e_shnum (header_at once) = elf.e_shnum header).
  { rewrite Hh, Hraw. apply u16_at_apart; try assumption. lia. }
  set (p := elf.e_shoff header + 40) in *.
  assert (E3 : elf.sh_type (sector_header_at once p) = elf.sh_type vectors).
  { rewrite Hvec, Hraw. apply u32_at_apart; try assumption. lia. }
  assert (E4 : elf.sh_offset (sector_header_at once p)
               = elf.sh_offset vectors).
  { rewrite Hvec, Hraw. apply u32_at_apart; try assumption. lia. }
  assert (Hv1 : validate once = Ok (header_at once)).
  { apply validate_Ok_iff. unfold accepted_header.
    rewrite E1, E2, Elen.
    unfold elf.sizeof_header, elf.sizeof_sector_header.
    repeat split; try assumption.
    rewrite Hraw, take_4_patched by assumption. exact Hsig. }
  apply patch_image_Ok. exists crc. apply process_Ok_iff.
  exists (header_at once), (sector_header_at once p).
  split; [exact Hv1|]. split.
  - rewrite (locate_cases once (header_at once) Hv1). cbv zeta.
    rewrite E1. fold p. rewrite E3, E4, Hty, Elen. cbn [Z.eqb Pos.eqb negb].
    rewrite (proj2 (Z.ltb_ge _ _)) by lia. reflexivity.
  - rewrite E4. split.
    + rewrite Hcrc at 1. rewrite Hraw at 1.
      rewrite crc_words_patched by assumption. reflexivity.
    + rewrite Hraw at 2. rewrite with_checksum_again by assumption.
      exact Hraw.
Qed.

Lemma patch_idempotent_witness :
  patch_image_twice good_image = patch_image good_image.
Proof.
  destruct (patch_image good_image) as [once| |] eqn:E;
    try (vm_compute in E; discriminate).
  rewrite <- E.
  apply (patch_idempotent good_image once (header_at good_image)
           (sector_header_at good_image 92)); try exact E.
  - vm_compute. reflexivity.
  - vm_compute. reflexivity.
  - unfold checksum_slot_apart, apart. vm_compute. intuition discriminate.
Defined.

(** C10 as stated fails: [overlap_image] is accepted, with its vector
    table at offset 80; the checksum, 0, lands on section 1's own
    [sh_offset] field, so the patched image has its vector table at
    offset 0 and a second application writes another checksum into bytes
    28..31: twice is not once. *)
Lemma patch_idempotent_counterexample :
  validate overlap_image = Ok (header_at overlap_image)
  /\ locate overlap_image (header_at overlap_image)
     = Ok (sector_header_at overlap_image 92)
  /\ elf.sh_offset (sector_header_at overlap_image 92) = 80
  /\ exists once twice,
       patch_image overlap_image = Ok once
       /\ patch_image once = Ok twice
       /\ patch_image_twice overlap_image = Ok twice
       /\ take 4 (drop 28 once) = le32 0
       /\ take 4 (drop 28 twice) = le32 3112876413
       /\ twice <> once.
Proof.
  split; [vm_compute; reflexivity|]. split; [vm_compute; reflexivity|].
  split; [vm_compute; reflexivity|].
  destruct (patch_image overlap_image) as [once| |] eqn:E1;
    try (vm_compute in E1; discriminate).
  destruct (patch_image once) as [twice| |] eqn:E2;
    try (vm_compute in E1; injection E1 as <-; vm_compute in E2;
         discriminate).
  exists once, twice.
  assert (E3 : patch_image_twice overlap_image = Ok twice)
    by (unfold patch_image_twice; rewrite E1; exact E2).
  vm_compute in E1. injection E1 as <-.
  vm_compute in E2. injection E2 as <-.
  repeat split; try assumption; try (vm_compute; reflexivity).
  intros H. apply (f_equal (fun l => take 4 (drop 28 l))) in H.
  vm_compute in H. discriminate.
Qed.

(** ** Reads and writes stay inside the buffer from four bytes on *)

Lemma validate_defined (raw : list byte) :
  4 <= Z.of_nat (length raw) -> validate raw <> Undefined.
Proof.
  intros H. unfold validate. rewrite check_signature_total by exact H.
  case_bool_decide; run_result; [|discriminate].
  unfold check_header_size.
  destruct (Z.ltb_spec (Z.of_nat (length raw)) elf.sizeof_header) as [Hh|Hh];
    run_result; [discriminate|].
  rewrite decode_header_ok by exact Hh. run_result.
  unfold check_section_count, check_section_table.
  destruct (_ <? 2); run_result; [discriminate|].
  destruct (_ <? _); run_result; discriminate.
Qed.

Lemma locate_defined (raw : list byte) (header : elf.header) :
  validate raw = Ok header -> locate raw header <> Undefined.
Proof.
  intros Hv. rewrite (locate_cases raw header Hv). cbv zeta.
  destruct (negb _); [discriminate|].
  destruct (_ <? _); discriminate.
Qed.

(** The signature comparison on a file of one to three bytes is the only
    access outside the buffer in the whole program. *)
Lemma process_defined (raw : list byte) :
  process raw = Undefined <-> 0 < Z.of_nat (length raw) < 4.
Proof.
  split; [|intros H; apply process_short, H].
  intros Hu.
  destruct (Z_lt_le_dec (Z.of_nat (length raw)) 4) as [Hs|Hs].
  - destruct raw; [discriminate Hu | cbn [length] in *; lia].
  - exfalso.
    destruct (validate raw) as [header|e|] eqn:Hv.
    + destruct (locate raw header) as [vectors|e|] eqn:Hl.
      * assert (Hp : process raw
                     = Ok (with_checksum raw (elf.sh_offset vectors)
                             (calculate_crc
                                (crc_words raw (elf.sh_offset vectors))),
                           calculate_crc
                             (crc_words raw (elf.sh_offset vectors)))).
        { apply process_Ok_iff. exists header, vectors. auto. }
        congruence.
      * unfold process, check_loaded in Hu.
        rewrite (proj2 (Z.eqb_neq _ _)) in Hu by lia.
        rewrite Hv in Hu. run_result. cbn in Hu. rewrite Hl in Hu.
        discriminate.
      * exact (locate_defined raw header Hv Hl).
    + unfold process, check_loaded in Hu.
      rewrite (proj2 (Z.eqb_neq _ _)) in Hu by lia.
      rewrite Hv in Hu. discriminate.
    + exact (validate_defined raw Hs Hv).
Qed.

(** * Further properties of the program *)

(** ** The checksum as a function of the words *)

Lemma sum_words_app (xs ys : list Z) :
  sum_words (xs ++ ys) = sum_words xs + sum_words ys.
Proof.
  induction xs as [|x xs IH]; cbn; [reflexivity|].
  fold (sum_words (xs ++ ys)). fold (sum_words xs). lia.
Qed.

Lemma sum_words_perm (xs ys : list Z) :
  xs ≡ₚ ys -> sum_words xs = sum_words ys.
Proof.
  induction 1 as [|x xs ys _ IH|x y xs|xs ys zs _ IH1 _ IH2]; cbn.
  - reflexivity.
  - fold (sum_words xs). fold (sum_words ys). lia.
  - fold (sum_words xs). lia.
  - congruence.
Qed.

(** X1. The checksum is the only unsigned 32-bit value that makes the
    words and the checksum add up to 0 modulo 2^32. *)
Theorem checksum_unique (data : list Z) (c : Z) :
  is_u32 c ->
  ((sum_words data + c) mod 2 ^ 32 = 0 <-> c = calculate_crc data).
Proof.
  unfold is_u32. intros Hc. split.
  - intros H. rewrite calculate_crc_eq.
    apply Z.mod_divide in H; [|lia]. destruct H as [k Hk].
    replace (0 - sum_words data) with (c + (- k) * 2 ^ 32) by lia.
    rewrite Z.mod_add by lia. symmetry. apply Z.mod_small. exact Hc.
  - intros ->. apply calculate_crc_sum_zero.
Qed.

Lemma checksum_unique_witness :
  (sum_words [1; 2; 3; 4; 5; 6; 7] + 4294967268) mod 2 ^ 32 = 0
  <-> 4294967268 = calculate_crc [1; 2; 3; 4; 5; 6; 7].
Proof.
  apply (checksum_unique [1; 2; 3; 4; 5; 6; 7] 4294967268).
  unfold is_u32. lia.
Defined.

(** X2. The checksum does not depend on the order of the words. *)
Theorem checksum_permutation (data data' : list Z) :
  data ≡ₚ data' -> calculate_crc data = calculate_crc data'.
Proof.
  intros H. rewrite !calculate_crc_eq.
  rewrite (sum_words_perm data data' H). reflexivity.
Qed.

Lemma checksum_permutation_witness :
  calculate_crc [1; 2; 3; 4; 5; 6; 7] = calculate_crc [7; 6; 5; 4; 3; 2; 1].
Proof.
  apply checksum_permutation.
  change [7; 6; 5; 4; 3; 2; 1] with (reverse [1; 2; 3; 4; 5; 6; 7]).
  symmetry. apply reverse_Permutation.
Defined.

(** X3. Replacing one word by a different unsigned 32-bit word changes
    the checksum: two tables that differ in a single word never share a
    checksum. *)
Theorem checksum_detects_word (pre post : list Z) (a b : Z) :
  is_u32 a -> is_u32 b -> a <> b ->
  calculate_crc (pre ++ a :: post) <> calculate_crc (pre ++ b :: post).
Proof.
  unfold is_u32. intros Ha Hb Hne H.
  rewrite !calculate_crc_eq, !sum_words_app in H.
  cbn [sum_words fold_right] in H.
  fold (sum_words post) in H.
  set (s := sum_words pre) in *. set (t := sum_words post) in *.
  assert (Hd : (b - a) mod 2 ^ 32 = 0).
  { replace (b - a) with ((0 - (s + (a + t))) - (0 - (s + (b + t)))) by lia.
    rewrite Zminus_mod, H, Z.sub_diag. reflexivity. }
  apply Z.mod_divide in Hd; [|lia]. destruct Hd as [k Hk].
  assert (k = 0) by nia. lia.
Qed.

Lemma checksum_detects_word_witness :
  calculate_crc ([1; 2; 3] ++ 4 :: [5; 6; 7])
  <> calculate_crc ([1; 2; 3] ++ 5 :: [5; 6; 7]).
Proof.
  apply checksum_detects_word; unfold is_u32; lia.
Defined.

(** ** Little-endian words: decoding, then encoding *)

Lemma lor_shiftl_add (a b k : Z) :
  0 <= k -> 0 <= a < 2 ^ k -> 0 <= b ->
  Z.lor a (Z.shiftl b k) = a + b * 2 ^ k.
Proof.
  intros Hk Ha Hb.
  assert (Hland : Z.land a (Z.shiftl b k) = 0).
  { apply Z.bits_inj'. intros n Hn.
    rewrite Z.land_spec, Z.bits_0.
    destruct (Z.lt_ge_cases n k) as [Hlt|Hge].
    - rewrite (Z.shiftl_spec_low _ _ _ Hlt). apply andb_false_r.
    - rewrite <- (Z.mod_small a (2 ^ k)) by lia.
      rewrite Z.mod_pow2_bits_high by lia. reflexivity. }
  rewrite <- Z.lxor_lor by exact Hland.
  rewrite <- Z.add_nocarry_lxor by exact Hland.
  rewrite Z.shiftl_mul_pow2 by lia. reflexivity.
Qed.

(** The word made of four bytes, as a sum. *)
Lemma word_of_bytes (b0 b1 b2 b3 : Z) :
  0 <= b0 < 256 -> 0 <= b1 < 256 -> 0 <= b2 < 256 -> 0 <= b3 < 256 ->
  wrap32 (Z.lor (Z.lor (Z.lor b0 (Z.shiftl b1 8)) (Z.shiftl b2 16))
            (Z.shiftl b3 24))
  = b0 + 256 * b1 + 65536 * b2 + 16777216 * b3.
Proof.
  intros H0 H1 H2 H3.
  rewrite (lor_shiftl_add b0 b1 8) by lia.
  rewrite (lor_shiftl_add _ b2 16) by lia.
  rewrite (lor_shiftl_add _ b3 24) by lia.
  rewrite wrap32_small by (unfold is_u32; lia). lia.
Qed.

Lemma to_byte_mod (x : Z) : to_byte (x mod 256) = to_byte x.
Proof. unfold to_byte. rewrite Z.mod_mod by lia. reflexivity. Qed.

Lemma le32_word_of_bytes (x0 x1 x2 x3 : byte) :
  le32 (u8 x0 + 256 * u8 x1 + 65536 * u8 x2 + 16777216 * u8 x3)
  = [x0; x1; x2; x3].
Proof.
  pose proof (u8_range x0) as H0. pose proof (u8_range x1) as H1.
  pose proof (u8_range x2) as H2. pose proof (u8_range x3) as H3.
  set (w := u8 x0 + 256 * u8 x1 + 65536 * u8 x2 + 16777216 * u8 x3).
  unfold le32. rewrite !Z.shiftr_div_pow2 by lia.
  rewrite <- (to_byte_mod w), <- (to_byte_mod (w / 2 ^ 8)),
    <- (to_byte_mod (w / 2 ^ 16)), <- (to_byte_mod (w / 2 ^ 24)).
  assert (E0 : w mod 256 = u8 x0) by (subst w; Z.div_mod_to_equations; lia).
  assert (E1 : (w / 2 ^ 8) mod 256 = u8 x1)
    by (subst w; change (2 ^ 8) with 256; Z.div_mod_to_equations; lia).
  assert (E2 : (w / 2 ^ 16) mod 256 = u8 x2)
    by (subst w; change (2 ^ 16) with 65536; Z.div_mod_to_equations; lia).
  assert (E3 : (w / 2 ^ 24) mod 256 = u8 x3)
    by (subst w; change (2 ^ 24) with 16777216; Z.div_mod_to_equations; lia).
  rewrite E0, E1, E2, E3, !to_byte_u8. reflexivity.
Qed.

Lemma byte_at_app_r (pre post : list byte) (k : nat) :
  byte_at (pre ++ post) (Z.of_nat (length pre) + Z.of_nat k)
  = match post !! k with Some b => u8 b | None => 0 end.
Proof.
  unfold byte_at.
  replace (Z.to_nat (Z.of_nat (length pre) + Z.of_nat k))
    with (length pre + k)%nat by lia.
  rewrite lookup_app_r by lia.
  replace (length pre + k - length pre)%nat with k by lia. reflexivity.
Qed.

Lemma le32_u32_at (raw : list byte) (p : Z) :
  0 <= p -> p + 4 <= Z.of_nat (length raw) ->
  le32 (u32_at raw p) = take 4 (drop (Z.to_nat p) raw).
Proof.
  intros H0 H1.
  destruct (split_around raw (Z.to_nat p) ltac:(lia))
    as (x0 & x1 & x2 & x3 & E).
  assert (Hpre : length (take (Z.to_nat p) raw) = Z.to_nat p)
    by (rewrite length_take; lia).
  set (pre := take (Z.to_nat p) raw) in *.
  set (post := drop (Z.to_nat p + 4) raw) in *.
  assert (Hd : take 4 (drop (Z.to_nat p) raw) = [x0; x1; x2; x3]).
  { rewrite E, drop_app_length' by (symmetry; exact Hpre).
    cbn. rewrite take_0. reflexivity. }
  rewrite Hd. unfold u32_at.
  assert (B : forall k : nat,
             byte_at raw (p + Z.of_nat k)
             = match (x0 :: x1 :: x2 :: x3 :: post) !! k with
               | Some b => u8 b
               | None => 0
               end).
  { intros k. rewrite E at 1.
    replace p with (Z.of_nat (length pre)) at 1 by lia.
    apply byte_at_app_r. }
  pose proof (B 0%nat) as B0. pose proof (B 1%nat) as B1.
  pose proof (B 2%nat) as B2. pose proof (B 3%nat) as B3.
  cbn [lookup list_lookup] in B0, B1, B2, B3.
  change (Z.of_nat 0) with 0 in B0. change (Z.of_nat 1) with 1 in B1.
  change (Z.of_nat 2) with 2 in B2. change (Z.of_nat 3) with 3 in B3.
  rewrite Z.add_0_r in B0.
  rewrite B0, B1, B2, B3.
  rewrite word_of_bytes by apply u8_range.
  apply le32_word_of_bytes.
Qed.

(** ** The patched vector table *)

Lemma with_checksum_same (raw : list byte) (sh_offset : Z) :
  0 <= sh_offset -> sh_offset + 32 <= Z.of_nat (length raw) ->
  with_checksum raw sh_offset (u32_at raw (sh_offset + 28)) = raw.
Proof.
  intros H0 H1. unfold with_checksum.
  rewrite le32_u32_at by lia.
  replace (Z.to_nat (sh_offset + 28)) with (Z.to_nat sh_offset + 28)%nat
    by lia.
  set (a := (Z.to_nat sh_offset + 28)%nat).
  replace (Z.to_nat sh_offset + 32)%nat with (a + 4)%nat by lia.
  rewrite <- drop_drop, take_drop. apply take_drop.
Qed.

(** X4. The stores of the patch and the little-endian read of the
    checksum loop are inverse to each other: after the patch has stored an
    unsigned 32-bit word [w] in the slot, reading the slot gives [w]; and
    the slot reads as [w] exactly when storing [w] there leaves the buffer
    as it is. *)
Theorem patch_read_round_trip (raw : list byte) (sh_offset w : Z) :
  0 <= sh_offset -> sh_offset + 32 <= Z.of_nat (length raw) -> is_u32 w ->
  (exists raw',
     patch_crc raw sh_offset w = Ok raw'
     /\ read_u32 raw' (sh_offset + 28) = Ok w)
  /\ (read_u32 raw (sh_offset + 28) = Ok w
      <-> patch_crc raw sh_offset w = Ok raw).
Proof.
  intros H0 H1 Hw. rewrite patch_crc_ok by assumption. split.
  - exists (with_checksum raw sh_offset w). split; [reflexivity|].
    rewrite read_u32_ok
      by (rewrite ?length_with_checksum by assumption; lia).
    f_equal. apply u32_at_slot; assumption.
  - rewrite read_u32_ok by lia. split.
    + intros [= <-]. f_equal. apply with_checksum_same; assumption.
    + intros [= E]. f_equal. rewrite <- E at 1.
      apply u32_at_slot; assumption.
Qed.

Lemma patch_read_round_trip_witness :
  read_u32 signed_image (132 + 28) = Ok 4294967268
  <-> patch_crc signed_image 132 4294967268 = Ok signed_image.
Proof.
  apply (patch_read_round_trip signed_image 132 4294967268);
    [lia | vm_compute; congruence | unfold is_u32; lia].
Defined.

(** X5. In the buffer [main] writes back, the seven words of the vector
    table and the eighth word satisfy the check of the boot ROM: the eighth
    word is the checksum of the seven before it, and the eight words add up
    to 0 modulo 2^32. *)
Theorem patched_table_sums_to_zero (raw raw' : list byte) (crc : Z)
    (header : elf.header) (vectors : elf.sector_header) :
  validate raw = Ok header ->
  locate raw header = Ok vectors ->
  process raw = Ok (raw', crc) ->
  exists ws,
    get_crc_data raw' (elf.sh_offset vectors) = Ok ws
    /\ read_u32 raw' (elf.sh_offset vectors + 28) = Ok crc
    /\ calculate_crc ws = crc
    /\ (sum_words ws + crc) mod 2 ^ 32 = 0.
Proof.
  intros Hv Hl Hp.
  apply process_Ok_iff in Hp as (header' & vectors' & Hv' & Hl' & Hcrc & Hraw).
  rewrite Hv in Hv'. injection Hv' as <-.
  rewrite Hl in Hl'. injection Hl' as <-.
  destruct (locate_Ok_inv raw header vectors Hv Hl) as (_ & _ & H0 & H1).
  assert (Hlen : length raw' = length raw)
    by (rewrite Hraw; apply length_with_checksum; assumption).
  exists (crc_words raw (elf.sh_offset vectors)).
  split; [|split; [|split]].
  - rewrite get_crc_data_ok by lia. f_equal.
    rewrite Hraw. apply crc_words_patched; assumption.
  - rewrite read_u32_ok by lia. f_equal.
    rewrite Hraw. apply u32_at_slot; try assumption.
    rewrite Hcrc. apply wrap32_range.
  - symmetry. exact Hcrc.
  - rewrite Hcrc. apply calculate_crc_sum_zero.
Qed.

Lemma patched_table_sums_to_zero_witness :
  exists ws,
    get_crc_data signed_image 132 = Ok ws
    /\ read_u32 signed_image (132 + 28) = Ok 4294967268
    /\ (sum_words ws + 4294967268) mod 2 ^ 32 = 0.
Proof.
  assert (E : elf.sh_offset (sector_header_at good_image 92) = 132)
    by (vm_compute; reflexivity).
  destruct (patched_table_sums_to_zero good_image signed_image 4294967268
              (header_at good_image) (sector_header_at good_image 92))
    as (ws & Hws & Hslot & _ & Hsum);
    [vm_compute; reflexivity .. |].
  rewrite E in Hws, Hslot.
  exists ws. split; [exact Hws|]. split; [exact Hslot | exact Hsum].
Defined.

(** X6. The patch leaves the buffer byte for byte as it was exactly when
    the eighth word of the vector table already is the checksum of the
    first seven: a correctly signed image is rewritten unchanged, and any
    other image is changed. *)
Theorem signed_image_unchanged (raw raw' : list byte) (crc : Z)
    (header : elf.header) (vectors : elf.sector_header) :
  validate raw = Ok header ->
  locate raw header = Ok vectors ->
  process raw = Ok (raw', crc) ->
  (raw' = raw <-> read_u32 raw (elf.sh_offset vectors + 28) = Ok crc).
Proof.
  intros Hv Hl Hp.
  apply process_Ok_iff in Hp as (header' & vectors' & Hv' & Hl' & Hcrc & Hraw).
  rewrite Hv in Hv'. injection Hv' as <-.
  rewrite Hl in Hl'. injection Hl' as <-.
  destruct (locate_Ok_inv raw header vectors Hv Hl) as (_ & _ & H0 & H1).
  rewrite read_u32_ok by lia.
  assert (Hu : is_u32 crc) by (rewrite Hcrc; apply wrap32_range).
  split.
  - intros E. f_equal. rewrite <- E at 1. rewrite Hraw.
    apply u32_at_slot; assumption.
  - intros [= E]. rewrite Hraw, <- E. apply with_checksum_same; assumption.
Qed.

Lemma signed_image_unchanged_witness :
  read_u32 signed_image (132 + 28) = Ok 4294967268.
Proof.
  apply (proj1 (signed_image_unchanged signed_image signed_image 4294967268
                  (header_at signed_image) (sector_header_at signed_image 92)
                  ltac:(vm_compute; reflexivity)
                  ltac:(vm_compute; reflexivity)
                  ltac:(vm_compute; reflexivity))).
  reflexivity.
Defined.

(** ** Which check stops a run *)

Lemma validate_cases (raw : list byte) :
  4 <= Z.of_nat (length raw) ->
  validate raw
  = if negb (bool_decide (take 4 raw = elf_signature))
    then Fail InvalidSignature
    else if Z.of_nat (length raw) <? 52 then Fail TooSmallForHeader
    else if u16_at raw 48 <? 2 then Fail TooFewSections
    else if Z.of_nat (length raw) <? u32_at raw 32 + u16_at raw 48 * 40
         then Fail TooSmallForSectionTable
    else Ok (header_at raw).
Proof.
  intros H. unfold validate. rewrite check_signature_total by exact H.
  case_bool_decide; run_result; [|reflexivity].
  unfold check_header_size. change elf.sizeof_header with 52.
  destruct (Z.ltb_spec (Z.of_nat (length raw)) 52) as [Hh|Hh];
    run_result; [reflexivity|].
  rewrite decode_header_ok by exact Hh. run_result.
  unfold check_section_count, check_section_table.
  rewrite section_table_end_exact.
  change (elf.e_shnum (header_at raw)) with (u16_at raw 48).
  change (elf.e_shoff (header_at raw)) with (u32_at raw 32).
  change elf.sizeof_sector_header with 40.
  destruct (u16_at raw 48 <? 2); run_result; [reflexivity|].
  destruct (_ <? _); reflexivity.
Qed.

Lemma checks_cases (raw : list byte) :
  4 <= Z.of_nat (length raw) ->
  checks raw
  = if negb (bool_decide (take 4 raw = elf_signature))
    then Fail InvalidSignature
    else if Z.of_nat (length raw) <? 52 then Fail TooSmallForHeader
    else if u16_at raw 48 <? 2 then Fail TooFewSections
    else if Z.of_nat (length raw) <? u32_at raw 32 + u16_at raw 48 * 40
         then Fail TooSmallForSectionTable
    else if negb (u32_at raw (u32_at raw 32 + 44) =? 1)
         then Fail WrongSectionType
    else if Z.of_nat (length raw) <? u32_at raw (u32_at raw 32 + 56) + 32
         then Fail TooSmallForVectorTable
    else Ok (sector_header_at raw (u32_at raw 32 + 40)).
Proof.
  intros H. unfold checks.
  destruct (validate raw) as [header|e|] eqn:Hv.
  - run_result. rewrite (locate_cases raw header Hv). cbv zeta.
    rewrite (validate_cases raw H) in Hv.
    destruct (negb (bool_decide _)); [discriminate|].
    destruct (_ <? 52); [discriminate|].
    destruct (_ <? 2); [discriminate|].
    destruct (_ <? _ + _ * 40); [discriminate|].
    injection Hv as <-.
    change (elf.e_shoff (header_at raw)) with (u32_at raw 32).
    cbn [elf.sh_type elf.sh_offset sector_header_at].
    replace (u32_at raw 32 + 40 + 4) with (u32_at raw 32 + 44) by lia.
    replace (u32_at raw 32 + 40 + 16) with (u32_at raw 32 + 56) by lia.
    reflexivity.
  - run_result. rewrite (validate_cases raw H) in Hv.
    destruct (negb (bool_decide _)); [congruence|].
    destruct (_ <? 52); [congruence|].
    destruct (_ <? 2); [congruence|].
    destruct (_ <? _ + _ * 40); [congruence|]. discriminate.
  - exfalso. exact (validate_defined raw H Hv).
Qed.

(** X7. Which structural check stops a file of at least four bytes, in
    terms of its bytes: [InvalidSignature] exactly when the first four
    bytes are not the signature; otherwise [TooSmallForHeader] exactly
    when it has fewer than 52 bytes; otherwise [TooFewSections] exactly
    when the 16-bit field at byte 48 is below 2; otherwise
    [TooSmallForSectionTable] exactly when it is shorter than the 32-bit
    field at byte 32 plus 40 times the field at byte 48. *)
Theorem checks_verdict (raw : list byte) :
  4 <= Z.of_nat (length raw) ->
  (checks raw = Fail InvalidSignature <-> take 4 raw <> elf_signature)
  /\ (checks raw = Fail TooSmallForHeader
      <-> take 4 raw = elf_signature /\ Z.of_nat (length raw) < 52)
  /\ (checks raw = Fail TooFewSections
      <-> take 4 raw = elf_signature /\ 52 <= Z.of_nat (length raw)
          /\ u16_at raw 48 < 2)
  /\ (checks raw = Fail TooSmallForSectionTable
      <-> take 4 raw = elf_signature /\ 52 <= Z.of_nat (length raw)
          /\ 2 <= u16_at raw 48
          /\ Z.of_nat (length raw) < u32_at raw 32 + u16_at raw 48 * 40).
Proof.
  intros H. rewrite (checks_cases raw H).
  case_bool_decide as Hsig; cbn [negb].
  2:{ repeat split; try discriminate; try tauto. }
  destruct (Z.ltb_spec (Z.of_nat (length raw)) 52) as [Hh|Hh].
  { repeat split; try discriminate; try tauto; try lia.
    all: intros (? & ?); lia. }
  destruct (Z.ltb_spec (u16_at raw 48) 2) as [Hn|Hn].
  { repeat split; try discriminate; try tauto; try lia.
    all: intros (? & ?); lia. }
  destruct (Z.ltb_spec (Z.of_nat (length raw))
              (u32_at raw 32 + u16_at raw 48 * 40)) as [Ht|Ht].
  { repeat split; try discriminate; try tauto; try lia.
    all: intros (? & ?); lia. }
  destruct (negb _);
    [|destruct (_ <? _)];
    (repeat split; try discriminate; try tauto; try lia;
     intros (? & ?); lia).
Qed.

Lemma checks_verdict_witness :
  checks (fixture_header 52 40 1 ++ null_section) = Fail TooFewSections.
Proof.
  destruct (checks_verdict (fixture_header 52 40 1 ++ null_section))
    as (_ & _ & H & _).
  - vm_compute. congruence.
  - apply H. split; [reflexivity|]. split; vm_compute; congruence.
Defined.

Lemma verdict_cases (raw : list byte) :
  4 <= Z.of_nat (length raw) ->
  verdict raw
  = if negb (bool_decide (take 4 raw = elf_signature))
    then Fail InvalidSignature
    else if Z.of_nat (length raw) <? 52 then Fail TooSmallForHeader
    else if u16_at raw 48 <? 2 then Fail TooFewSections
    else if Z.of_nat (length raw) <? u32_at raw 32 + u16_at raw 48 * 40
         then Fail TooSmallForSectionTable
    else if negb (u32_at raw (u32_at raw 32 + 44) =? 1)
         then Fail WrongSectionType
    else if Z.of_nat (length raw) <? u32_at raw (u32_at raw 32 + 56) + 32
         then Fail TooSmallForVectorTable
    else Ok (u32_at raw (u32_at raw 32 + 56)).
Proof.
  intros H. unfold verdict. rewrite (checks_cases raw H).
  repeat (match goal with |- context [if ?c then _ else _] => destruct c end;
          try reflexivity).
  run_result. cbn [elf.sh_offset sector_header_at].
  do 2 f_equal. lia.
Qed.

Lemma verdict_short (raw : list byte) :
  Z.of_nat (length raw) < 4 -> verdict raw = Undefined.
Proof.
  intros H. unfold verdict, checks, validate, check_signature.
  rewrite std_equal_short by exact H. reflexivity.
Qed.

(** X8. The outcome of the checks depends on six things only: the
    length of the file, its first four bytes, the fields [e_shoff] and
    [e_shnum] of the header, and the fields [sh_type] and [sh_offset] of
    section 1.  Two files that agree on these take the same exit or are
    accepted with the same vector-table offset. *)
Theorem verdict_depends_on (raw1 raw2 : list byte) :
  length raw1 = length raw2 ->
  take 4 raw1 = take 4 raw2 ->
  u32_at raw1 32 = u32_at raw2 32 ->
  u16_at raw1 48 = u16_at raw2 48 ->
  u32_at raw1 (u32_at raw1 32 + 44) = u32_at raw2 (u32_at raw1 32 + 44) ->
  u32_at raw1 (u32_at raw1 32 + 56) = u32_at raw2 (u32_at raw1 32 + 56) ->
  verdict raw1 = verdict raw2.
Proof.
  intros Hlen Hsig Hoff Hnum Hty Hso.
  destruct (Z_lt_le_dec (Z.of_nat (length raw1)) 4) as [Hs|Hs].
  - rewrite !verdict_short by lia. reflexivity.
  - rewrite !verdict_cases by lia.
    rewrite <- Hlen, <- Hsig, <- Hoff, <- Hnum, <- Hty, <- Hso.
    reflexivity.
Qed.

Lemma verdict_depends_on_witness :
  verdict big_endian_image = verdict good_image.
Proof.
  apply verdict_depends_on; vm_compute; reflexivity.
Defined.

Lemma byte_at_insert_ne (raw : list byte) (i : nat) (b : byte) (q : Z) :
  Z.to_nat q <> i -> byte_at (<[i := b]> raw) q = byte_at raw q.
Proof.
  intros H. unfold byte_at. rewrite list_lookup_insert_ne by congruence.
  reflexivity.
Qed.

Lemma u16_at_insert_out (raw : list byte) (i : nat) (b : byte) (p : Z) :
  0 <= p -> (i < Z.to_nat p \/ Z.to_nat p + 2 <= i)%nat ->
  u16_at (<[i := b]> raw) p = u16_at raw p.
Proof.
  intros H0 H. unfold u16_at. rewrite !byte_at_insert_ne by lia. reflexivity.
Qed.

Lemma u32_at_insert_out (raw : list byte) (i : nat) (b : byte) (p : Z) :
  0 <= p -> (i < Z.to_nat p \/ Z.to_nat p + 4 <= i)%nat ->
  u32_at (<[i := b]> raw) p = u32_at raw p.
Proof.
  intros H0 H. unfold u32_at. rewrite !byte_at_insert_ne by lia. reflexivity.
Qed.

(** X9. The checks never look at bytes 4 to 31 of the file: the class
    and data-encoding (endianness) bytes and the rest of [e_ident], and the
    fields [e_type], [e_machine], [e_version], [e_entry] and [e_phoff].
    Whatever is stored in one of them, the same exit is taken or the same
    vector-table offset is found. *)
Theorem ident_bytes_ignored (raw : list byte) (i : nat) (b : byte) :
  (4 <= i < 32)%nat ->
  verdict (<[i := b]> raw) = verdict raw.
Proof.
  intros Hi.
  destruct (Z_lt_le_dec (Z.of_nat (length raw)) 4) as [Hs|Hs].
  - rewrite !verdict_short by (rewrite ?length_insert; lia). reflexivity.
  - rewrite !verdict_cases by (rewrite ?length_insert; lia).
    rewrite length_insert, take_insert_ge by lia.
    rewrite (u32_at_insert_out raw i b 32) by lia.
    rewrite (u16_at_insert_out raw i b 48) by lia.
    pose proof (u32_at_range raw 32) as Hr. unfold is_u32 in Hr.
    rewrite (u32_at_insert_out raw i b (u32_at raw 32 + 44)) by lia.
    rewrite (u32_at_insert_out raw i b (u32_at raw 32 + 56)) by lia.
    reflexivity.
Qed.

Lemma ident_bytes_ignored_witness :
  verdict big_endian_image = verdict good_image.
Proof.
  apply (ident_bytes_ignored good_image 5 Byte.x02). lia.
Defined.

(** ** What was in the checksum slot before *)

Lemma with_checksum_overwrite (raw : list byte) (sh_offset v c : Z) :
  0 <= sh_offset -> sh_offset + 32 <= Z.of_nat (length raw) ->
  with_checksum (with_checksum raw sh_offset v) sh_offset c
  = with_checksum raw sh_offset c.
Proof.
  intros H0 H1. unfold with_checksum.
  set (a := (Z.to_nat sh_offset + 28)%nat).
  replace (Z.to_nat sh_offset + 32)%nat with (a + 4)%nat by lia.
  assert (Ha : length (take a raw) = a) by (rewrite length_take; lia).
  f_equal.
  - rewrite take_app_length' by (symmetry; exact Ha). reflexivity.
  - f_equal. rewrite <- drop_drop.
    rewrite drop_app_length' by (symmetry; exact Ha).
    rewrite drop_app_length' by reflexivity. reflexivity.
Qed.

Lemma process_of_accepted (raw : list byte) (header : elf.header)
    (vectors : elf.sector_header) :
  validate raw = Ok header ->
  locate raw header = Ok vectors ->
  process raw
  = Ok (with_checksum raw (elf.sh_offset vectors)
          (calculate_crc (crc_words raw (elf.sh_offset vectors))),
        calculate_crc (crc_words raw (elf.sh_offset vectors))).
Proof.
  intros Hv Hl. apply process_Ok_iff. exists header, vectors. auto.
Qed.

(** An accepted image whose checksum word is apart from the checked
    fields stays accepted, with the same vector-table offset, whatever
    word is stored in the slot. *)
Lemma accepted_after_store (raw : list byte) (header : elf.header)
    (vectors : elf.sector_header) (v : Z) :
  validate raw = Ok header ->
  locate raw header = Ok vectors ->
  checksum_slot_apart header vectors ->
  exists header' vectors',
    validate (with_checksum raw (elf.sh_offset vectors) v) = Ok header'
    /\ locate (with_checksum raw (elf.sh_offset vectors) v) header'
       = Ok vectors'
    /\ elf.sh_offset vectors' = elf.sh_offset vectors.
Proof.
  intros Hv Hl Hapart.
  destruct (locate_Ok_inv raw header vectors Hv Hl) as (Hvec & Hty & H0 & H1).
  pose proof Hv as (Hlen4 & Hsig & Hlen & Hh & Hn & Ht)%validate_Ok_iff.
  unfold elf.sizeof_header, elf.sizeof_sector_header in *.
  destruct Hapart as (A1 & A2 & A3 & A4). cbv zeta in A1, A2, A3, A4.
  unfold elf.sizeof_sector_header in A3, A4.
  pose proof (e_shoff_range raw) as Ho. unfold is_u32 in Ho.
  rewrite <- Hh in Ho.
  set (off := elf.sh_offset vectors) in *.
  set (raw2 := with_checksum raw off v).
  assert (Elen : length raw2 = length raw)
    by (apply length_with_checksum; assumption).
  assert (E1 : elf.e_shoff (header_at raw2) = elf.e_shoff header).
  { rewrite Hh. apply u32_at_apart; try assumption. lia. }
  assert (E2 : elf.e_shnum (header_at raw2) = elf.e_shnum header).
  { rewrite Hh. apply u16_at_apart; try assumption. lia. }
  set (p := elf.e_shoff header + 40) in *.
  assert (E3 : elf.sh_type (sector_header_at raw2 p) = elf.sh_type vectors).
  { rewrite Hvec. apply u32_at_apart; try assumption. lia. }
  assert (E4 : elf.sh_offset (sector_header_at raw2 p) = off).
  { unfold off. rewrite Hvec. apply u32_at_apart.
    - fold off. assumption.
    - fold off. assumption.
    - lia.
    - fold off. assumption. }
  assert (Hv2 : validate raw2 = Ok (header_at raw2)).
  { apply validate_Ok_iff. unfold accepted_header.
    rewrite E1, E2, Elen.
    unfold elf.sizeof_header, elf.sizeof_sector_header.
    repeat split; try assumption.
    unfold raw2. rewrite take_4_patched by assumption. exact Hsig. }
  exists (header_at raw2), (sector_header_at raw2 p).
  split; [exact Hv2|]. split; [|exact E4].
  rewrite (locate_cases raw2 (header_at raw2) Hv2). cbv zeta.
  rewrite E1. fold p. rewrite E3, E4, Hty, Elen. cbn [Z.eqb Pos.eqb negb].
  rewrite (proj2 (Z.ltb_ge _ _)) by lia. reflexivity.
Qed.

(** X10. The word found in the checksum slot before the run has no
    influence on the result: for an accepted image whose checksum word is
    apart from the checked fields, storing any word in the slot beforehand
    leads to the same patched buffer and the same checksum. *)
Theorem slot_content_irrelevant (raw raw2 : list byte)
    (header : elf.header) (vectors : elf.sector_header) (v : Z) :
  validate raw = Ok header ->
  locate raw header = Ok vectors ->
  checksum_slot_apart header vectors ->
  patch_crc raw (elf.sh_offset vectors) v = Ok raw2 ->
  process raw2 = process raw.
Proof.
  intros Hv Hl Hapart Hst.
  destruct (locate_Ok_inv raw header vectors Hv Hl) as (_ & _ & H0 & H1).
  rewrite patch_crc_ok in Hst by assumption. injection Hst as <-.
  destruct (accepted_after_store raw header vectors v Hv Hl Hapart)
    as (header' & vectors' & Hv' & Hl' & Hoff).
  rewrite (process_of_accepted _ header' vectors' Hv' Hl').
  rewrite (process_of_accepted raw header vectors Hv Hl).
  rewrite Hoff, crc_words_patched by assumption.
  rewrite with_checksum_overwrite by assumption. reflexivity.
Qed.

Lemma slot_content_irrelevant_witness :
  process (with_checksum good_image 132 305419896) = process good_image.
Proof.
  apply (slot_content_irrelevant good_image _ (header_at good_image)
           (sector_header_at good_image 92) 305419896).
  - vm_compute. reflexivity.
  - vm_compute. reflexivity.
  - unfold checksum_slot_apart, apart.
    assert (E1 : elf.sh_offset (sector_header_at good_image 92) = 132)
      by (vm_compute; reflexivity).
    assert (E2 : elf.e_shoff (header_at good_image) = 52)
      by (vm_compute; reflexivity).
    rewrite E1, E2. unfold elf.sizeof_sector_header. cbv zeta. lia.
  - vm_compute. reflexivity.
Defined.

(** X11. Running the program a second time on the file it has just
    written changes nothing: for a file accepted by the checks whose
    checksum word is apart from the checked fields, the second run ends
    successfully, prints the same lines and leaves the file as the first
    run left it. *)
Theorem second_run_changes_nothing (prog file : string) (rest : list string)
    (fs : filesys) (raw : list byte) (header : elf.header)
    (vectors : elf.sector_header) :
  fs !! file = Some raw ->
  validate raw = Ok header ->
  locate raw header = Ok vectors ->
  checksum_slot_apart header vectors ->
  let first := main (prog :: file :: rest) WriteOk fs in
  let second := main (prog :: file :: rest) WriteOk (disk first) in
  outcome first = Ok tt
  /\ outcome second = Ok tt
  /\ stdout second = stdout first
  /\ disk second = disk first.
Proof.
  intros Hfile Hv Hl Hapart first second.
  set (off := elf.sh_offset vectors).
  set (crc := calculate_crc (crc_words raw off)).
  destruct (locate_Ok_inv raw header vectors Hv Hl) as (_ & _ & H0 & H1).
  assert (Hp1 : process (get_raw_file file fs)
                = Ok (with_checksum raw off crc, crc)).
  { unfold get_raw_file. rewrite Hfile.
    change (default [] (Some raw)) with raw.
    apply (process_of_accepted raw header vectors Hv Hl). }
  assert (Hfirst : first
                   = {| outcome := Ok tt;
                        stdout := [banner; signature_line crc;
                                   completion_line];
                        disk := <[file := with_checksum raw off crc]> fs;
                        opened_for_write := [file] |}).
  { unfold first. rewrite main_with_file, Hp1. reflexivity. }
  destruct (accepted_after_store raw header vectors crc Hv Hl Hapart)
    as (header' & vectors' & Hv' & Hl' & Hoff).
  assert (Hp2 : process (get_raw_file file (disk first))
                = Ok (with_checksum raw off crc, crc)).
  { rewrite Hfirst. cbn [disk]. unfold get_raw_file.
    rewrite lookup_insert_eq.
    change (default [] (Some ?x)) with x.
    unfold off, crc in *.
    rewrite (process_of_accepted _ header' vectors' Hv' Hl').
    rewrite Hoff, crc_words_patched by assumption.
    rewrite with_checksum_overwrite by assumption. reflexivity. }
  assert (Hsecond : second
                    = {| outcome := Ok tt;
                         stdout := [banner; signature_line crc;
                                    completion_line];
                         disk := <[file := with_checksum raw off crc]>
                                   (disk first);
                         opened_for_write := [file] |}).
  { unfold second. rewrite main_with_file, Hp2. reflexivity. }
  rewrite Hsecond. cbn [outcome stdout disk].
  rewrite Hfirst. cbn [outcome stdout disk].
  rewrite insert_insert_eq. auto.
Qed.

Lemma second_run_changes_nothing_witness :
  disk (main fixture_argv WriteOk
          (disk (main fixture_argv WriteOk (disk_with good_image))))
  = disk (main fixture_argv WriteOk (disk_with good_image)).
Proof.
  apply (second_run_changes_nothing "elfdwt" "a.elf" [] (disk_with good_image)
           good_image (header_at good_image)
           (sector_header_at good_image 92)).
  - vm_compute. reflexivity.
  - vm_compute. reflexivity.
  - vm_compute. reflexivity.
  - unfold checksum_slot_apart, apart.
    assert (E1 : elf.sh_offset (sector_header_at good_image 92) = 132)
      by (vm_compute; reflexivity).
    assert (E2 : elf.e_shoff (header_at good_image) = 52)
      by (vm_compute; reflexivity).
    rewrite E1, E2. unfold elf.sizeof_sector_header. cbv zeta. lia.
Defined.

(** ** Runs of [main], continued *)

(** X12. A run is undefined exactly when a file is named on the command
    line and the loader yields one to three bytes (the signature
    comparison then reads past the buffer).  In every other run, every read
    and store [main] performs on the buffer is inside it. *)
Theorem run_defined (argv : list string) (wf : write_fault) (fs : filesys) :
  outcome (main argv wf fs) = Undefined
  <-> exists file,
        argv !! 1%nat = Some file
        /\ 0 < Z.of_nat (length (get_raw_file file fs)) < 4.
Proof.
  destruct argv as [|prog [|file rest]].
  - cbn. split; [discriminate | intros (f & Hf & _); discriminate].
  - cbn. split; [discriminate | intros (f & Hf & _); discriminate].
  - rewrite main_with_file. cbn [lookup list_lookup].
    destruct (process (get_raw_file file fs)) as [[raw' crc]|e|] eqn:Hp.
    + cbn. split; [discriminate|].
      intros (f & [= <-] & Hlen). apply process_defined in Hlen. congruence.
    + cbn. split; [discriminate|].
      intros (f & [= <-] & Hlen). apply process_defined in Hlen. congruence.
    + cbn. split; [|reflexivity].
      intros _. exists file. split; [reflexivity|].
      apply process_defined, Hp.
Qed.

(** X13. Whatever the outcome of the run and of the write, no file other
    than the one named by the first argument is created, changed or
    removed. *)
Theorem other_files_untouched (argv : list string) (wf : write_fault)
    (fs : filesys) (other : string) :
  argv !! 1%nat <> Some other ->
  disk (main argv wf fs) !! other = fs !! other.
Proof.
  intros Hne.
  destruct argv as [|prog [|file rest]]; try reflexivity.
  rewrite main_with_file.
  assert (Hf : file <> other) by (intros ->; apply Hne; reflexivity).
  destruct (process (get_raw_file file fs)) as [[raw' crc]|e|];
    try reflexivity.
  cbn [disk]. destruct wf as [| |n]; cbn [write_file]; try reflexivity.
  - apply lookup_insert_ne, Hf.
  - apply lookup_insert_ne, Hf.
Qed.

Lemma other_files_untouched_witness :
  disk (main fixture_argv (FailsAfter 3) two_file_disk) !! "b.bin"
  = Some [Byte.x01; Byte.x02].
Proof.
  rewrite (other_files_untouched fixture_argv (FailsAfter 3) two_file_disk
             "b.bin").
  - vm_compute. reflexivity.
  - vm_compute. congruence.
Defined.

(** ** Bounds of the accesses to the vector table *)

Lemma read_u8_cases (raw : list byte) (q : Z) :
  read_u8 raw q
  = if decide (Z.to_nat q < length raw)%nat then Ok (byte_at raw q)
    else Undefined.
Proof.
  unfold read_u8, byte_at. case_decide as H.
  - apply lookup_lt_is_Some in H as [b ->]. reflexivity.
  - rewrite lookup_ge_None_2 by lia. reflexivity.
Qed.

Lemma read_u32_cases (raw : list byte) (p : Z) :
  0 <= p ->
  read_u32 raw p
  = if decide (p + 4 <= Z.of_nat (length raw)) then Ok (u32_at raw p)
    else Undefined.
Proof.
  intros H0. case_decide as H; [apply read_u32_ok; assumption|].
  unfold read_u32. rewrite !read_u8_cases.
  repeat case_decide; run_result; try reflexivity; lia.
Qed.

Lemma read_u32_inv (raw : list byte) (p w : Z) :
  read_u32 raw p = Ok w -> w = u32_at raw p.
Proof.
  unfold read_u32. rewrite !read_u8_cases.
  repeat case_decide; run_result; try discriminate.
  intros [= <-]. reflexivity.
Qed.

Lemma read_u32_result (raw : list byte) (p : Z) :
  read_u32 raw p = Ok (u32_at raw p) \/ read_u32 raw p = Undefined.
Proof.
  destruct (read_u32 raw p) as [w|e|] eqn:H.
  - left. f_equal. apply read_u32_inv, H.
  - exfalso. revert H. unfold read_u32. rewrite !read_u8_cases.
    repeat case_decide; run_result; discriminate.
  - right. reflexivity.
Qed.

(** X14. The array handed to [calculate_crc] always holds seven words,
    each below 2^32, namely the little-endian words at [sh_offset],
    [sh_offset + 4], ..., [sh_offset + 24]: the precondition of the
    checksum holds whenever the loop over [crc_data] completes. *)
Theorem crc_data_well_formed (raw : list byte) (sh_offset : Z)
    (crc_data : list Z) :
  get_crc_data raw sh_offset = Ok crc_data ->
  length crc_data = 7%nat
  /\ Forall is_u32 crc_data
  /\ crc_data = crc_words raw sh_offset.
Proof.
  unfold get_crc_data. cbn [fill_crc_data]. intros H.
  assert (E : crc_data = crc_words raw sh_offset).
  { revert H.
    repeat (match goal with
            | |- context [read_u32 raw ?p] =>
                destruct (read_u32_result raw p) as [-> | ->]
            end);
      run_result; try discriminate.
    intros [= <-]. reflexivity. }
  subst crc_data. split; [reflexivity|]. split; [|reflexivity].
  unfold crc_words. cbn [map].
  repeat constructor; apply u32_at_range.
Qed.

Lemma crc_data_well_formed_witness :
  Forall is_u32 [1; 2; 3; 4; 5; 6; 7].
Proof.
  apply (crc_data_well_formed good_image 132 [1; 2; 3; 4; 5; 6; 7]).
  vm_compute. reflexivity.
Defined.

(** X15. For a non-negative section offset, reading the seven words is
    inside the buffer exactly when the file has [sh_offset + 28] bytes, and
    the four stores of the patch are inside it exactly when it has
    [sh_offset + 32] bytes, the bound [main] checks before both. *)
Theorem table_access_bounds (raw : list byte) (sh_offset crc : Z) :
  0 <= sh_offset ->
  (get_crc_data raw sh_offset = Undefined
   <-> Z.of_nat (length raw) < sh_offset + 28)
  /\ (patch_crc raw sh_offset crc = Undefined
      <-> Z.of_nat (length raw) < sh_offset + 32).
Proof.
  intros H0. split.
  - destruct (Z_lt_le_dec (Z.of_nat (length raw)) (sh_offset + 28))
      as [Hs|Hs].
    + split; [intros _; exact Hs|]. intros _.
      unfold get_crc_data. cbn [fill_crc_data].
      rewrite !read_u32_cases by lia.
      repeat case_decide; run_result; try reflexivity; lia.
    + rewrite get_crc_data_ok by lia. split; [discriminate | lia].
  - destruct (Z_lt_le_dec (Z.of_nat (length raw)) (sh_offset + 32))
      as [Hs|Hs].
    + split; [intros _; exact Hs|]. intros _.
      unfold patch_crc, store_u8.
      repeat (case_decide; run_result; [|reflexivity]).
      rewrite !length_insert in *. lia.
    + rewrite patch_crc_ok by lia. split; [discriminate | lia].
Qed.

Lemma table_access_bounds_witness :
  patch_crc short_vector_image 132 0 = Undefined.
Proof.
  apply (table_access_bounds short_vector_image 132 0); [lia|].
  vm_compute. reflexivity.
Defined.

(** ** The report line *)

Lemma hex_digit_code (d : Z) :
  0 <= d < 16 ->
  nat_of_ascii (hex_digit d)
  = if d <? 10 then Z.to_nat (48 + d) else Z.to_nat (87 + d).
Proof.
  intros H. unfold hex_digit.
  destruct (d <? 10); rewrite nat_ascii_embedding by lia; f_equal; lia.
Qed.

Lemma hex_digit_inj (a b : Z) :
  0 <= a < 16 -> 0 <= b < 16 -> hex_digit a = hex_digit b -> a = b.
Proof.
  intros Ha Hb H. apply (f_equal nat_of_ascii) in H.
  rewrite !hex_digit_code in H by assumption.
  destruct (Z.ltb_spec a 10), (Z.ltb_spec b 10); lia.
Qed.

Lemma hex_digits_length (n : nat) (x : Z) (acc : string) :
  String.length (hex_digits n x acc) = (n + String.length acc)%nat.
Proof.
  revert x acc. induction n as [|n IH]; intros x acc; cbn [hex_digits].
  - reflexivity.
  - rewrite IH. cbn [String.length]. lia.
Qed.

Lemma hex_digits_inj (n : nat) (x y : Z) (acc acc' : string) :
  hex_digits n x acc = hex_digits n y acc' ->
  acc = acc' /\ x mod 16 ^ Z.of_nat n = y mod 16 ^ Z.of_nat n.
Proof.
  revert x y acc acc'. induction n as [|n IH]; intros x y acc acc' H.
  - cbn in H. split; [exact H|]. cbn. rewrite !Z.mod_1_r. reflexivity.
  - cbn [hex_digits] in H. apply IH in H as [Hs Hm].
    injection Hs as Hd Hacc. split; [exact Hacc|].
    apply hex_digit_inj in Hd; try (apply Z.mod_pos_bound; lia).
    rewrite Nat2Z.inj_succ, Z.pow_succ_r by lia.
    rewrite !(Z.rem_mul_r _ 16 (16 ^ Z.of_nat n)) by lia.
    rewrite Hd, Hm. reflexivity.
Qed.

Lemma append_inv_head (p s t : string) : p +:+ s = p +:+ t -> s = t.
Proof.
  induction p as [|c p IH]; cbn; [auto|].
  intros [= H]. apply IH, H.
Qed.

(** X16. The report line is a fixed text followed by the checksum as
    exactly eight hexadecimal digits, and it identifies the checksum: two
    different unsigned 32-bit checksums never print the same line. *)
Theorem report_line_shows_checksum (crc crc' : Z) :
  is_u32 crc -> is_u32 crc' ->
  signature_line crc = signature_prefix +:+ hex8 crc
  /\ String.length (hex8 crc) = 8%nat
  /\ (signature_line crc = signature_line crc' -> crc = crc').
Proof.
  unfold is_u32. intros Hc Hc'.
  assert (Hline : forall c, signature_line c = signature_prefix +:+ hex8 c)
    by (intros c; reflexivity).
  split; [apply Hline|]. split; [apply hex_digits_length|].
  rewrite !Hline. intros H%append_inv_head.
  apply hex_digits_inj in H as [_ H].
  change (16 ^ Z.of_nat 8) with (2 ^ 32) in H.
  rewrite !Z.mod_small in H by assumption. exact H.
Qed.

Lemma report_line_shows_checksum_witness :
  signature_line 4294967268 = signature_prefix +:+ hex8 4294967268
  /\ String.length (hex8 4294967268) = 8%nat.
Proof.
  destruct (report_line_shows_checksum 4294967268 0) as (H1 & H2 & _);
    [unfold is_u32; lia ..|].
  split; [exact H1 | exact H2].
Defined.
